(** * Atari7800_AstroCart: checksum replication, byte placement, sector
      loader and SD-card provisioner.

    A shallow embedding of the repository's scripts:
    - [sim_crc2.py]         the periodic partial-sample checksum sweep,
    - [sim_crc3.py]         the loader's payload window and the full sum,
    - [verify_checksum.py]  [calculate_sum],
    - [sim_offset.py]       the burst word/byte-lane mapping,
    - [replace_loader.py]   the sector-loader state machine ([new_logic]),
    - [write_games_to_sd.py] the block provisioner and its entry point.

    Byte strings are [list byte]; Python integers are [Z]; Python slices
    [d[a:b]] with non-negative bounds are [slice a b d]. *)

From Stdlib Require Import ZArith List Bool Lia.
From Stdlib Require Import Strings.Byte Strings.String Strings.Ascii.
From Stdlib Require Import Permutation.
Import ListNotations.

Local Open Scope Z_scope.

(** ** Bytes and slices *)

(** The integer a Python [bytes]/[bytearray] element evaluates to. *)
Definition byte_val (b : byte) : Z := Z.of_N (Byte.to_N b).

(** Python's built-in [sum] over a byte string. *)
Definition sum_bytes (d : list byte) : Z :=
  fold_left (fun acc b => acc + byte_val b) d 0.

(** [d[a:b]] for [0 <= a], [0 <= b]: both ends are clipped to [len(d)],
    and the slice is empty when [b <= a]. *)
Definition slice (a b : Z) (d : list byte) : list byte :=
  firstn (Z.to_nat b - Z.to_nat a) (skipn (Z.to_nat a) d).

(** [d[a:]] for [0 <= a]. *)
Definition slice_from (a : Z) (d : list byte) : list byte :=
  skipn (Z.to_nat a) d.

(** [b'\x00' * n]: empty when [n <= 0]. *)
Definition zeros (n : Z) : list byte := repeat x00 (Z.to_nat n).

Definition len (d : list byte) : Z := Z.of_nat (List.length d).

(** [d[i]] for [0 <= i]; [None] stands for [IndexError]. *)
Definition index (d : list byte) (i : Z) : option byte :=
  nth_error d (Z.to_nat i).

(** [range(n)] *)
Definition range (n : Z) : list Z := map Z.of_nat (seq 0 (Z.to_nat n)).

(** [range(0, n, step)] for a positive [step]. *)
Definition range_step (n step : Z) : list Z :=
  map (fun k => k * step) (range ((n + step - 1) / step)).

(** [a == b] on byte strings. *)
Definition bytes_eqb (a b : list byte) : bool :=
  if list_eq_dec byte_eq_dec a b then true else false.

(** ** sim_crc2.py: periodic partial-sample sweep *)

Module SimCrc2.

(** [data.extend(b'\x00' * (98304 - len(data)))] *)
Definition extend (data : list byte) : list byte :=
  data ++ zeros (98304 - len data).

(** The body of [for i in range(3)]: add the four bytes of word [i]. *)
Definition add_word (data : list byte) (byte_addr : Z)
  (checksum : Z) (i : Z) : Z :=
  let word := slice (byte_addr + i * 4) (byte_addr + i * 4 + 4) data in
  fold_left (fun c b => c + byte_val b) word checksum.

(** One pass of the [while] body before the cursor update. *)
Definition period (data : list byte) (crc_address checksum : Z) : Z :=
  let byte_addr := crc_address * 2 in
  fold_left (add_word data byte_addr) [0; 1; 2] checksum.

(** [while crc_address <= 0x00BFF0: ...; crc_address += 16].  The loop
    is run on fuel; [None] means the fuel ran out before the guard
    failed. *)
Fixpoint sweep (fuel : nat) (data : list byte)
  (crc_address checksum : Z) : option Z :=
  if crc_address <=? 0x00BFF0 then
    match fuel with
    | O => None
    | S fuel' =>
        sweep fuel' data (crc_address + 16) (period data crc_address checksum)
    end
  else Some checksum.

(** The script from the file contents to the printed value:
    [checksum = 0], [crc_address = 0], then the sweep. *)
Definition checksum (fuel : nat) (file : list byte) : option Z :=
  sweep fuel (extend file) 0 0.

End SimCrc2.

(** ** sim_crc3.py: payload window and 32-bit full sum *)

Module SimCrc3.

Definition payload_len : Z := 49664 - 128.

(** [payload = data[128:128+payload_len]] *)
Definition payload (data : list byte) : list byte :=
  slice 128 (128 + payload_len) data.

(** [for b in payload: sd_checksum = (sd_checksum + b) & 0xFFFFFFFF] *)
Definition sum32 (bytes : list byte) : Z :=
  fold_left (fun acc b => Z.land (acc + byte_val b) 0xFFFFFFFF) bytes 0.

Definition sd_checksum (data : list byte) : Z := sum32 (payload data).

(** [for i in range(49152):
       psram_checksum = (psram_checksum + payload[i]) & 0xFFFFFFFF]
    over the indices still to visit; [payload[i]] past the end raises
    [IndexError]. *)
Fixpoint psram_loop (payload : list byte) (indices : list Z)
  (psram_checksum : Z) : option Z :=
  match indices with
  | [] => Some psram_checksum
  | i :: rest =>
      match index payload i with
      | None => None
      | Some b =>
          psram_loop payload rest
            (Z.land (psram_checksum + byte_val b) 0xFFFFFFFF)
      end
  end.

Definition psram_checksum (data : list byte) : option Z :=
  psram_loop (payload data) (range 49152) 0.

End SimCrc3.

(** ** verify_checksum.py *)

Module VerifyChecksum.

(** [calculate_sum(filename, skip_header)]; the file is [None] when
    opening it raises [FileNotFoundError], and the function then
    returns [None]. *)
Definition calculate_sum (file : option (list byte)) (skip_header : Z)
  : option Z :=
  match file with
  | None => None
  | Some data =>
      let processing_data :=
        if 0 <? skip_header then slice_from skip_header data else data in
      Some (sum_bytes processing_data)
  end.

End VerifyChecksum.

(** ** sim_offset.py: burst placement of a load address *)

Module SimOffset.

(** [word_sel = (psram_load_addr >> 2) & 3] *)
Definition word_sel (psram_load_addr : Z) : Z :=
  Z.land (Z.shiftr psram_load_addr 2) 3.

(** [byte_sel = psram_load_addr & 3] *)
Definition byte_sel (psram_load_addr : Z) : Z :=
  Z.land psram_load_addr 3.

(** The pairs the loop prints for [psram_load_addr = 0 .. n-1]. *)
Definition mapping (n : nat) : list (Z * Z) :=
  map (fun i => (word_sel (Z.of_nat i), byte_sel (Z.of_nat i))) (seq 0 n).

End SimOffset.

(** ** replace_loader.py: the sector-loader state machine ([new_logic])

    The Verilog [case (sd_state)] block is one clocked step: every
    non-blocking assignment reads the registers of the previous tick, so
    [step] builds the next register file from the old one.  Signals the
    block only reads ([sd_ready], [sd_status], [sd_byte_available] and its
    one-tick delayed copy [sd_byte_available_d]) are inputs of the tick.
    Register widths and the parameter [GAME_SIZE_SECTORS] are declared
    outside the block: registers are kept as integers and the parameter
    is a section variable. *)

Module Loader.

(** The encodings named in the [case], and any other value of the
    state register (the [default] arm). *)
Inductive sd_state_t : Type :=
| SD_IDLE
| SD_LOAD_START
| SD_LOAD_WAIT
| SD_LOAD_DATA
| SD_LOAD_NEXT
| SD_COMPLETE
| SD_OTHER (encoding : Z).

Record regs : Type := mkRegs {
  sd_state : sd_state_t;
  sd_address : Z;
  sd_rd : bool;
  byte_in_sector : Z;
  psram_wr_req : bool;
  psram_load_addr : Z;
  current_sector : Z;
  load_complete : bool;
  game_loaded : bool
}.

Record inputs : Type := mkInputs {
  sd_ready : bool;
  sd_status : Z;
  sd_byte_available : bool;
  sd_byte_available_d : bool
}.

Definition set_state (st : sd_state_t) (r : regs) : regs :=
  mkRegs st (sd_address r) (sd_rd r) (byte_in_sector r) (psram_wr_req r)
         (psram_load_addr r) (current_sector r) (load_complete r)
         (game_loaded r).

(** The guard of the byte-intake arm of [SD_LOAD_DATA]: the sector is
    not being closed by [sd_ready], and [sd_byte_available] rose. *)
Definition byte_edge (r : regs) (i : inputs) : bool :=
  negb (sd_ready i && (byte_in_sector r <? 512))
  && (sd_byte_available i && negb (sd_byte_available_d i)).

Section Step.

Variable GAME_SIZE_SECTORS : Z.

Definition step (r : regs) (i : inputs) : regs :=
  match sd_state r with
  | SD_IDLE =>
      if sd_ready i && (sd_status i =? 6)
      then set_state SD_LOAD_START r
      else r
  | SD_LOAD_START =>
      mkRegs SD_LOAD_WAIT (current_sector r) true 0 (psram_wr_req r)
             (psram_load_addr r) (current_sector r) (load_complete r)
             (game_loaded r)
  | SD_LOAD_WAIT =>
      if negb (sd_ready i)
      then mkRegs SD_LOAD_DATA (sd_address r) false (byte_in_sector r)
                  (psram_wr_req r) (psram_load_addr r) (current_sector r)
                  (load_complete r) (game_loaded r)
      else r
  | SD_LOAD_DATA =>
      if sd_ready i && (byte_in_sector r <? 512)
      then set_state SD_LOAD_NEXT r
      else if sd_byte_available i && negb (sd_byte_available_d i)
      then mkRegs (if byte_in_sector r =? 511
                   then SD_LOAD_NEXT else SD_LOAD_DATA)
                  (sd_address r) (sd_rd r) (byte_in_sector r + 1)
                  true (psram_load_addr r + 1) (current_sector r)
                  (load_complete r) (game_loaded r)
      else r
  | SD_LOAD_NEXT =>
      if current_sector r =? GAME_SIZE_SECTORS - 1
      then mkRegs SD_COMPLETE (sd_address r) (sd_rd r) (byte_in_sector r)
                  false (psram_load_addr r) (current_sector r)
                  (load_complete r) (game_loaded r)
      else mkRegs SD_LOAD_START (sd_address r) (sd_rd r)
                  (byte_in_sector r) false (psram_load_addr r)
                  (current_sector r + 1) (load_complete r)
                  (game_loaded r)
  | SD_COMPLETE =>
      mkRegs SD_COMPLETE (sd_address r) (sd_rd r) (byte_in_sector r)
             (psram_wr_req r) (psram_load_addr r) (current_sector r)
             true true
  | SD_OTHER _ => set_state SD_IDLE r
  end.

(** The register file after the ticks of an input trace. *)
Fixpoint run (r : regs) (trace : list inputs) : regs :=
  match trace with
  | [] => r
  | i :: rest => run (step r i) rest
  end.

(** Every register file the machine passes through after the first
    tick, in order. *)
Fixpoint states (r : regs) (trace : list inputs) : list regs :=
  match trace with
  | [] => []
  | i :: rest => step r i :: states (step r i) rest
  end.

(** Ticks of a trace on which [SD_LOAD_DATA] raises [psram_wr_req]
    and advances [psram_load_addr]: the bytes handed to the PSRAM. *)
Fixpoint committed (r : regs) (trace : list inputs) : Z :=
  match trace with
  | [] => 0
  | i :: rest =>
      (match sd_state r with
       | SD_LOAD_DATA => if byte_edge r i then 1 else 0
       | _ => 0
       end) + committed (step r i) rest
  end.

(** Ticks on which [SD_LOAD_START] issues a read ([sd_rd <= 1]). *)
Fixpoint read_requests (r : regs) (trace : list inputs) : list Z :=
  match trace with
  | [] => []
  | i :: rest =>
      match sd_state r with
      | SD_LOAD_START => current_sector r :: read_requests (step r i) rest
      | _ => read_requests (step r i) rest
      end
  end.

End Step.

(** *** A device that answers every request with a full sector *)

(** One tick with the card busy and no byte strobe. *)
Definition busy : inputs := mkInputs false 0 false false.
(** The tick on which [sd_byte_available] rises, and the next one, on
    which it has fallen and its delayed copy is still high. *)
Definition strobe_up : inputs := mkInputs false 0 true false.
Definition strobe_down : inputs := mkInputs false 0 false true.

(** The ticks of [n] bytes delivered back to back. *)
Fixpoint byte_ticks (n : nat) : list inputs :=
  match n with
  | O => []
  | S n' => strobe_up :: strobe_down :: byte_ticks n'
  end.

(** One sector: the request tick, the tick on which the card has gone
    busy, then 512 bytes; the strobe of the last byte falls on the
    [SD_LOAD_NEXT] tick. *)
Definition sector_ticks : list inputs :=
  busy :: busy :: byte_ticks 512.

Fixpoint sectors_ticks (n : nat) : list inputs :=
  match n with
  | O => []
  | S n' => sector_ticks ++ sectors_ticks n'
  end.

(** A session: the card reports ready with status 6, then serves
    [n] sectors. *)
Definition card_idle : inputs := mkInputs true 6 false false.
Definition session_ticks (n : nat) : list inputs :=
  card_idle :: sectors_ticks n.

(** Modelled from the spec: the register values at session creation,
    which are set by reset logic outside the [case] block: the loader
    parked in [Idle], block index 0, write address at the base address
    0, no request pending, both flags false. *)
Definition power_on : regs :=
  mkRegs SD_IDLE 0 false 0 false 0 0 false false.

(** The delayed strobe is the strobe of the previous tick. *)
Fixpoint delayed (prev : bool) (trace : list inputs) : bool :=
  match trace with
  | [] => true
  | i :: rest =>
      Bool.eqb (sd_byte_available_d i) prev
      && delayed (sd_byte_available i) rest
  end.

End Loader.

(** ** write_games_to_sd.py: the provisioner *)

Module Provisioner.

Definition BLOCK_SIZE : Z := 512.
Definition BLOCKS_PER_GAME : Z := 100.

(** Calls made on the opened block device inside the [try]. *)
Inductive dev_op : Type :=
| Open
| Seek (offset : Z)
| Write (data : list byte)
| Flush
| Fsync.

(** What a device call can raise: [PermissionError] or any other
    [Exception]. *)
Inductive exn : Type := PermissionError | OtherError.

(** The device decides for each call whether it raises. *)
Definition device : Type := dev_op -> option exn.

(** Lines the function prints. *)
Inductive message : Type :=
| ErrTooLarge (game_size blocks_needed : Z)
| ErrMaximum (bytes : Z)
| InfoWriting (game_size blocks_needed first_block last_block : Z)
| InfoWritten
| ErrPermission
| ErrException.

Record outcome : Type := mkOutcome {
  returned : bool;
  printed : list message;
  device_calls : list dev_op
}.

(** Make the calls in order until one raises; the raising call is part
    of the calls made. *)
Fixpoint attempt (dev : device) (ops : list dev_op)
  : list dev_op * option exn :=
  match ops with
  | [] => ([], None)
  | op :: rest =>
      match dev op with
      | Some e => ([op], Some e)
      | None => let '(made, r) := attempt dev rest in (op :: made, r)
      end
  end.

(** [start_block = 1 + (game_number * BLOCKS_PER_GAME)] *)
Definition start_block (game_number : Z) : Z :=
  1 + game_number * BLOCKS_PER_GAME.

(** [blocks_needed = (game_size + BLOCK_SIZE - 1) // BLOCK_SIZE] *)
Definition blocks_needed (game_size : Z) : Z :=
  (game_size + BLOCK_SIZE - 1) / BLOCK_SIZE.

(** [offset = start_block * BLOCK_SIZE] *)
Definition offset (game_number : Z) : Z :=
  start_block game_number * BLOCK_SIZE.

(** The body of the [with open(sd_device, 'r+b')] block. *)
Definition write_ops (game_data : list byte) (game_number : Z)
  : list dev_op :=
  let game_size := len game_data in
  let remainder := game_size mod BLOCK_SIZE in
  [Open; Seek (offset game_number); Write game_data]
    ++ (if remainder >? 0
        then [Write (zeros (BLOCK_SIZE - remainder))] else [])
    ++ [Flush; Fsync].

(** [write_game_to_blocks(sd_device, game_file, game_number)], on the
    contents of [game_file].  The calls followed are the ones the
    [with] body makes on the device; the implicit close of the [with]
    block and the success message, which also sit inside the [try], are
    not followed: a failure there turns a [True] into [False] and adds
    no seek or write. *)
Definition write_game_to_blocks (dev : device) (game_data : list byte)
  (game_number : Z) : outcome :=
  let game_size := len game_data in
  if blocks_needed game_size >? BLOCKS_PER_GAME then
    mkOutcome false
      [ErrTooLarge game_size (blocks_needed game_size);
       ErrMaximum (BLOCKS_PER_GAME * BLOCK_SIZE)]
      []
  else
    let info :=
      InfoWriting game_size (blocks_needed game_size)
        (start_block game_number)
        (start_block game_number + blocks_needed game_size - 1) in
    match attempt dev (write_ops game_data game_number) with
    | (made, None) => mkOutcome true [info; InfoWritten] made
    | (made, Some PermissionError) =>
        mkOutcome false [info; ErrPermission] made
    | (made, Some OtherError) =>
        mkOutcome false [info; ErrException] made
    end.

(** The branch the spec calls [OversizeImage]: the size error is
    printed and [False] is returned. *)
Definition oversize_rejected (o : outcome) : bool :=
  negb (returned o)
  && match printed o with
     | ErrTooLarge _ _ :: _ => true
     | _ => false
     end.

(** *** The entry point *)

(** Python's [needle in hay] on strings. *)
Fixpoint contains (needle hay : string) : bool :=
  String.prefix needle hay
  || match hay with
     | EmptyString => false
     | String _ rest => contains needle rest
     end.

(** What [main] sees of the world: which paths exist, the contents of
    the game files, the line typed at the prompt, the device. *)
Record env : Type := mkEnv {
  path_exists : string -> bool;
  read_file : string -> list byte;
  response : string;
  dev : device
}.

(** How [main] ends: [sys.exit(code)] or falling off its end. *)
Inductive ending : Type := Exit (code : Z) | Finished (success_count : Z).

(** [for i, game_file in enumerate(game_files)] from index [i] on. *)
Fixpoint write_each (e : env) (game_files : list string) (i : Z)
  (success_count : Z) (calls : list dev_op) : Z * list dev_op :=
  match game_files with
  | [] => (success_count, calls)
  | game_file :: rest =>
      if negb (path_exists e game_file)
      then write_each e rest (i + 1) success_count calls
      else
        let o := write_game_to_blocks (dev e) (read_file e game_file) i in
        write_each e rest (i + 1)
          (if returned o then success_count + 1 else success_count)
          (calls ++ device_calls o)
  end.

(** [main()] on [sys.argv]: how it ends and every device call made. *)
Definition main (e : env) (argv : list string) : ending * list dev_op :=
  if Z.of_nat (List.length argv) <? 3 then (Exit 1, [])
  else
    let sd_device := nth 1 argv EmptyString in
    let game_files := skipn 2 argv in
    if negb (path_exists e sd_device) then (Exit 1, [])
    else if contains "/dev/disk0" sd_device
            || contains "/dev/disk1" sd_device
    then (Exit 1, [])
    else if negb (String.eqb (response e) "YES") then (Exit 0, [])
    else
      let '(n, calls) := write_each e game_files 0 0 [] in
      (Finished n, calls).

End Provisioner.

(** ** sim_checksum.py: the 16-byte chunk sweep and the pattern scan *)

Module SimChecksum.

(** [while crc_addr < 0x10000: ...; crc_addr += 16], on fuel. *)
Fixpoint psram_sweep (fuel : nat) (data : list byte)
  (crc_addr psram_sum : Z) : option Z :=
  if crc_addr <? 0x10000 then
    match fuel with
    | O => None
    | S fuel' =>
        let offset := crc_addr - 0x4000 in
        let psram_sum' :=
          if offset <? len data
          then psram_sum + sum_bytes (slice offset (offset + 16) data)
          else psram_sum in
        psram_sweep fuel' data (crc_addr + 16) psram_sum'
    end
  else Some psram_sum.

(** [crc_addr = 0x4000], [psram_sum = 0], then the sweep. *)
Definition psram_sum (fuel : nat) (data : list byte) : option Z :=
  psram_sweep fuel data 0x4000 0.

(** [for i in range(len(data)-3): if data[i:i+4] == bytes(pattern)]:
    the offsets printed. *)
Definition scan (pattern data : list byte) : list Z :=
  filter (fun i => bytes_eqb (slice i (i + 4) data) pattern)
         (range (len data - 3)).

End SimChecksum.

(** ** find_all.py and find_offset.py *)

Module Find.

(** Whether [d] begins with [sub]. *)
Fixpoint starts_with (sub d : list byte) : bool :=
  match sub, d with
  | [], _ => true
  | _ :: _, [] => false
  | s :: sub', b :: d' => Byte.eqb s b && starts_with sub' d'
  end.

(** The search of [bytes.find] through the suffix [d] that starts at
    offset [i]: the first offset at which [sub] begins, or [-1]. *)
Fixpoint find_in (sub d : list byte) (i : Z) : Z :=
  if starts_with sub d then i
  else match d with
       | [] => -1
       | _ :: d' => find_in sub d' (i + 1)
       end.

(** [data.find(sub, start)] for [0 <= start]. *)
Definition find (data sub : list byte) (start : Z) : Z :=
  if len data <? start then -1
  else find_in sub (slice_from start data) start.

(** The [while True] loop of [find_all], on fuel: the offsets printed, in
    order, and [count]. *)
Fixpoint find_loop (fuel : nat) (data target_seq : list byte)
  (idx count : Z) (printed : list Z) : option (list Z * Z) :=
  match fuel with
  | O => None
  | S fuel' =>
      let idx' := find data target_seq idx in
      if idx' =? -1 then Some (printed, count)
      else find_loop fuel' data target_seq (idx' + 1) (count + 1)
                     (printed ++ [idx'])
  end.

(** [find_all(filename, target_seq)] on the contents of the file:
    [count = 0], [idx = 0], then the loop. *)
Definition find_all (fuel : nat) (data target_seq : list byte)
  : option (list Z * Z) :=
  find_loop fuel data target_seq 0 0 [].

(** [find_seq(filename, target_seq)] of [find_offset.py]: the offset and
    the context bytes it prints, or [None] for "Sequence not found". *)
Definition find_seq (data target_seq : list byte)
  : option (Z * list byte) :=
  let idx := find data target_seq 0 in
  if negb (idx =? -1) then
    let start := Z.max 0 (idx - 16) in
    let end_ := Z.min (len data) (idx + 32) in
    Some (idx, slice start end_ data)
  else None.

End Find.

(** ** dump_vectors.py and rom_gen.py: hex output *)

Module Hex.

(** The digit of a value [0 .. 15], in the upper-case alphabet of
    [:02X] or the lower-case one of [:02x]. *)
Definition digit (upper : bool) (n : Z) : ascii :=
  if n <? 10 then ascii_of_N (Z.to_N (48 + n))
  else ascii_of_N (Z.to_N ((if upper then 55 else 87) + n)).

(** [f"{b:02X}"] and [f"{b:02x}"] for a byte. *)
Definition hex2 (upper : bool) (b : byte) : string :=
  String (digit upper (byte_val b / 16))
         (String (digit upper (byte_val b mod 16)) EmptyString).

(** The value of a hexadecimal digit, either case. *)
Definition digit_value (c : ascii) : option Z :=
  let n := Z.of_N (N_of_ascii c) in
  if (48 <=? n) && (n <=? 57) then Some (n - 48)
  else if (65 <=? n) && (n <=? 70) then Some (n - 55)
  else if (97 <=? n) && (n <=? 102) then Some (n - 87)
  else None.

End Hex.

Module DumpVectors.

(** [f.seek(max(0, size - count)); data = f.read()] *)
Definition tail (file : list byte) (count : Z) : list byte :=
  slice_from (Z.max 0 (len file - count)) file.

(** [chr(b) if 32 <= b < 127 else '.'] *)
Definition ascii_char (b : byte) : ascii :=
  if (32 <=? byte_val b) && (byte_val b <? 127)
  then ascii_of_byte b else "."%char.

(** [' '.join(f"{b:02X}" for b in chunk)] *)
Definition hex_str (chunk : list byte) : string :=
  String.concat " " (map (Hex.hex2 true) chunk).

(** [''.join(... for b in chunk)] *)
Definition ascii_str (chunk : list byte) : string :=
  string_of_list_ascii (map ascii_char chunk).

(** One printed row: the offset shown, the chunk, its two renderings. *)
Record row : Type := mkRow {
  row_offset : Z;
  row_chunk : list byte;
  row_hex : string;
  row_ascii : string
}.

(** [dump_tail(filename, count)] on the contents of the file; [None] is
    the [FileNotFoundError] branch. *)
Definition dump_tail (file : option (list byte)) (count : Z)
  : option (list row) :=
  match file with
  | None => None
  | Some contents =>
      let size := len contents in
      let data := tail contents count in
      Some (map (fun i =>
                   let chunk := slice i (i + 16) data in
                   mkRow (size - len data + i) chunk
                         (hex_str chunk) (ascii_str chunk))
                (range_step (len data) 16))
  end.

End DumpVectors.

Module RomGen.

(** [if len(data) != 49152: print("Warning: ...")] *)
Definition warns (data : list byte) : bool := negb (len data =? 49152).

(** The text written to [game.hex]: [f"{byte:02x}\n"] for each byte. *)
Fixpoint hex_file (data : list byte) : string :=
  match data with
  | [] => EmptyString
  | byte :: rest =>
      String.append (Hex.hex2 false byte)
                    (String "010"%char (hex_file rest))
  end.

(** Reading the file back the way [$readmemh] does for this layout: two
    hexadecimal digits and a newline per entry. *)
Fixpoint read_hex (text : string) : option (list Z) :=
  match text with
  | EmptyString => Some []
  | String hi (String lo (String nl rest)) =>
      match Hex.digit_value hi, Hex.digit_value lo with
      | Some h, Some l =>
          if Ascii.eqb nl "010"%char then
            option_map (cons (16 * h + l)) (read_hex rest)
          else None
      | _, _ => None
      end
  | _ => None
  end.

End RomGen.

(** ** Observers of the loader and of the provisioner *)

Module Observe.

Import Loader.

(** The sector the next read request will name: the current one until
    it has been requested, the one after it from then on. *)
Definition next_request (GAME_SIZE_SECTORS : Z) (r : regs) : Z :=
  match sd_state r with
  | SD_IDLE | SD_LOAD_START | SD_OTHER _ => current_sector r
  | SD_LOAD_WAIT | SD_LOAD_DATA | SD_LOAD_NEXT => current_sector r + 1
  | SD_COMPLETE => GAME_SIZE_SECTORS
  end.

(** Bytes the sector being served may still deliver. *)
Definition allowance (r : regs) : Z :=
  match sd_state r with
  | SD_LOAD_WAIT => 512
  | SD_LOAD_DATA => 512 - byte_in_sector r
  | _ => 0
  end.

(** The byte counter is zero while the request is pending and below 512
    while bytes are taken. *)
Definition counter_ok (r : regs) : Prop :=
  match sd_state r with
  | SD_LOAD_WAIT => byte_in_sector r = 0
  | SD_LOAD_DATA => 0 <= byte_in_sector r <= 511
  | _ => True
  end.

(** The current sector is one of the image until the load is
    complete. *)
Definition in_image (GAME_SIZE_SECTORS : Z) (r : regs) : Prop :=
  match sd_state r with
  | SD_COMPLETE => True
  | _ => current_sector r <= GAME_SIZE_SECTORS - 1
  end.

(** The read requests seen on the wires: for every tick on which the
    [sd_rd] register goes from low to high, the sector that
    [sd_address] names after that tick. *)
Fixpoint rd_rises (GAME_SIZE_SECTORS : Z) (r : regs)
  (trace : list inputs) : list Z :=
  match trace with
  | [] => []
  | i :: rest =>
      let r' := step GAME_SIZE_SECTORS r i in
      (if negb (sd_rd r) && sd_rd r' then [sd_address r'] else [])
        ++ rd_rises GAME_SIZE_SECTORS r' rest
  end.

(** The card never signals ready on a tick the loader spends in
    [SD_LOAD_DATA]: no sector is closed before its last byte. *)
Fixpoint data_uninterrupted (GAME_SIZE_SECTORS : Z) (r : regs)
  (trace : list inputs) : Prop :=
  match trace with
  | [] => True
  | i :: rest =>
      (sd_state r = SD_LOAD_DATA -> sd_ready i = false)
      /\ data_uninterrupted GAME_SIZE_SECTORS
           (step GAME_SIZE_SECTORS r i) rest
  end.

(** Bytes between the registers and the end of the image: 512 for each
    sector not yet finished, less the bytes already taken of the sector
    being served. *)
Definition to_deliver (GAME_SIZE_SECTORS : Z) (r : regs) : Z :=
  match sd_state r with
  | SD_IDLE | SD_LOAD_START | SD_LOAD_WAIT | SD_OTHER _ =>
      512 * (GAME_SIZE_SECTORS - current_sector r)
  | SD_LOAD_DATA =>
      512 * (GAME_SIZE_SECTORS - current_sector r) - byte_in_sector r
  | SD_LOAD_NEXT => 512 * (GAME_SIZE_SECTORS - current_sector r - 1)
  | SD_COMPLETE => 0
  end.

(** Rising edges of [sd_byte_available] in a trace, given its value on
    the tick before. *)
Fixpoint rising_edges (prev : bool) (trace : list inputs) : Z :=
  match trace with
  | [] => 0
  | i :: rest =>
      (if sd_byte_available i && negb prev then 1 else 0)
      + rising_edges (sd_byte_available i) rest
  end.

(** The bytes handed to [sd.write], in order. *)
Fixpoint written (calls : list Provisioner.dev_op) : list byte :=
  match calls with
  | [] => []
  | Provisioner.Write data :: rest => data ++ written rest
  | _ :: rest => written rest
  end.

(** The offsets handed to [sd.seek], in order. *)
Fixpoint seeks (calls : list Provisioner.dev_op) : list Z :=
  match calls with
  | [] => []
  | Provisioner.Seek off :: rest => off :: seeks rest
  | _ :: rest => seeks rest
  end.

(** [len] of a list of offsets. *)
Definition len_of (l : list Z) : Z := Z.of_nat (List.length l).

(** [sub] occurs in [data] at offset [i]. *)
Definition occurs (sub data : list byte) (i : Z) : Prop :=
  0 <= i /\ i + len sub <= len data
  /\ slice i (i + len sub) data = sub.

End Observe.

(** ** Definitions used to state the properties *)

(** [ceil(n / d)] for a positive [d], as the quotient rounded up. *)
Definition ceil_div (n d : Z) : Z :=
  n / d + (if n mod d =? 0 then 0 else 1).

(** The word of the backing store a load address falls in,
    [address >> 2]; the byte lane is [SimOffset.byte_sel], and the
    script's [SimOffset.word_sel] is this index masked to the four
    words of a burst. *)
Definition word_index (address : Z) : Z := Z.shiftr address 2.

(** Lexicographic order on (word, lane) pairs. *)
Definition lex_lt (p q : Z * Z) : Prop :=
  fst p < fst q \/ (fst p = fst q /\ snd p < snd q).

(** [floor(0x00BFF0 / 16) + 1], the number of periods the sweep of
    [sim_crc2.py] visits. *)
Definition periods_swept : Z := 0x00BFF0 / 16 + 1.

(** * Facts about byte strings *)

Section ByteStrings.

Lemma byte_val_range (b : byte) : 0 <= byte_val b <= 255.
Proof.
  unfold byte_val. pose proof (Byte.to_N_bounded b). lia.
Qed.

Lemma fold_add_acc (l : list byte) (a : Z) :
  fold_left (fun acc b => acc + byte_val b) l a = a + sum_bytes l.
Proof.
  unfold sum_bytes. revert a.
  induction l as [|b l IH]; intros a; simpl; [lia|].
  rewrite IH, (IH (byte_val b)). lia.
Qed.

Lemma sum_bytes_cons (b : byte) (l : list byte) :
  sum_bytes (b :: l) = byte_val b + sum_bytes l.
Proof.
  unfold sum_bytes at 1. simpl. apply fold_add_acc.
Qed.

Lemma sum_bytes_app (l1 l2 : list byte) :
  sum_bytes (l1 ++ l2) = sum_bytes l1 + sum_bytes l2.
Proof.
  induction l1 as [|b l1 IH]; [reflexivity|].
  simpl. rewrite !sum_bytes_cons, IH. lia.
Qed.

Lemma sum_bytes_repeat (x : byte) (n : nat) :
  sum_bytes (repeat x n) = Z.of_nat n * byte_val x.
Proof.
  induction n as [|n IH]; [reflexivity|].
  cbn [repeat]. rewrite sum_bytes_cons, IH. lia.
Qed.

Lemma sum_bytes_nonneg (l : list byte) : 0 <= sum_bytes l.
Proof.
  induction l as [|b l IH]; [reflexivity|].
  rewrite sum_bytes_cons. pose proof (byte_val_range b). lia.
Qed.

Lemma sum_bytes_bound (l : list byte) : sum_bytes l <= 255 * len l.
Proof.
  unfold len. induction l as [|b l IH]; [reflexivity|].
  rewrite sum_bytes_cons. cbn [List.length].
  pose proof (byte_val_range b). lia.
Qed.

Lemma sum_bytes_perm (l1 l2 : list byte) :
  Permutation l1 l2 -> sum_bytes l1 = sum_bytes l2.
Proof.
  induction 1 as [|b l1 l2 _ IH|a b l|l1 l2 l3 _ IH1 _ IH2].
  - reflexivity.
  - rewrite !sum_bytes_cons. lia.
  - rewrite !sum_bytes_cons. lia.
  - congruence.
Qed.

Lemma Forall_eq_repeat (x : byte) (l : list byte) :
  Forall (eq x) l -> l = repeat x (List.length l).
Proof.
  induction 1 as [|b l Hb _ IH]; [reflexivity|].
  simpl. subst b. f_equal. exact IH.
Qed.

Lemma Forall_firstn (P : byte -> Prop) (n : nat) (l : list byte) :
  Forall P l -> Forall P (firstn n l).
Proof.
  intros H. revert n.
  induction H as [|b l Hb _ IH]; intros [|n]; simpl; auto.
Qed.

Lemma Forall_skipn (P : byte -> Prop) (n : nat) (l : list byte) :
  Forall P l -> Forall P (skipn n l).
Proof.
  intros H. revert n.
  induction H as [|b l Hb Hl IH]; intros [|n]; simpl; auto.
Qed.

Lemma slice_Forall (P : byte -> Prop) (a b : Z) (d : list byte) :
  Forall P d -> Forall P (slice a b d).
Proof.
  intros H. unfold slice. apply Forall_firstn, Forall_skipn, H.
Qed.

Lemma slice_length (a b : Z) (d : list byte) :
  0 <= a <= b -> b <= len d ->
  List.length (slice a b d) = Z.to_nat (b - a).
Proof.
  unfold slice, len. intros Hab Hb.
  rewrite length_firstn, length_skipn. lia.
Qed.

Lemma slice_app_l (a b : Z) (d e : list byte) :
  b <= len d -> slice a b (d ++ e) = slice a b d.
Proof.
  unfold slice, len. intros Hb.
  rewrite skipn_app, firstn_app, length_skipn.
  replace (Z.to_nat b - Z.to_nat a - (List.length d - Z.to_nat a))%nat
    with 0%nat by lia.
  cbn [firstn]. apply app_nil_r.
Qed.

Lemma slice_skip_prefix (h d : list byte) (b : Z) :
  0 <= b ->
  slice (len h) (len h + b) (h ++ d) = firstn (Z.to_nat b) d.
Proof.
  unfold slice, len. intros Hb.
  rewrite Nat2Z.id.
  replace (Z.to_nat (Z.of_nat (List.length h) + b) - List.length h)%nat
    with (Z.to_nat b) by lia.
  rewrite skipn_app, skipn_all, Nat.sub_diag. reflexivity.
Qed.

(** A window inside a run of equal bytes is that many copies. *)
Lemma slice_uniform (x : byte) (d e : list byte) (a n : Z) :
  Forall (eq x) d -> 0 <= a -> 0 <= n -> a + n <= len d ->
  slice a (a + n) (d ++ e) = repeat x (Z.to_nat n).
Proof.
  intros Hx Ha Hn Hlen.
  rewrite slice_app_l by lia.
  rewrite (Forall_eq_repeat x (slice a (a + n) d))
    by (apply slice_Forall, Hx).
  rewrite slice_length by lia. f_equal. lia.
Qed.

(** The masked accumulation of [sim_crc3.py] is the sum modulo 2^32. *)
Lemma sum32_mod (l : list byte) :
  SimCrc3.sum32 l = sum_bytes l mod 2 ^ 32.
Proof.
  unfold SimCrc3.sum32.
  assert (H : forall a, 0 <= a < 2 ^ 32 ->
    fold_left (fun acc b => Z.land (acc + byte_val b) 0xFFFFFFFF) l a
    = (a + sum_bytes l) mod 2 ^ 32).
  { induction l as [|b l IH]; intros a Ha; simpl.
    - unfold sum_bytes. simpl. rewrite Z.add_0_r, Z.mod_small; lia.
    - change 0xFFFFFFFF with (Z.ones 32).
      rewrite Z.land_ones by lia.
      rewrite IH by (apply Z.mod_pos_bound; lia).
      rewrite sum_bytes_cons, Zplus_mod_idemp_l. f_equal. lia. }
  rewrite H by lia. reflexivity.
Qed.

End ByteStrings.

(** * The partial-sample sweep of sim_crc2.py *)

Section Sweep.

Import SimCrc2.

(** A period whose three words are filled with one byte value adds 12
    times that value. *)
Lemma period_window (x : byte) (data : list byte) (a c : Z) :
  (forall i, 0 <= i < 3 ->
     slice (a * 2 + i * 4) (a * 2 + i * 4 + 4) data = [x; x; x; x]) ->
  period data a c = c + 12 * byte_val x.
Proof.
  intros Hw. unfold period, add_word. cbn [fold_left].
  rewrite (Hw 0), (Hw 1), (Hw 2) by lia.
  cbn [fold_left]. lia.
Qed.

(** The last [n] of the 3072 passes, on data whose periods there each
    add [w]: pass [k] starts at cursor [16 * k]. *)
Lemma sweep_constant (data : list byte) (w : Z) (n : nat) :
  forall (fuel : nat) (c : Z),
    (n <= 3072)%nat -> (n <= fuel)%nat ->
    (forall k c', 3072 - Z.of_nat n <= k < 3072 ->
       period data (16 * k) c' = c' + w) ->
    sweep fuel data (16 * (3072 - Z.of_nat n)) c
    = Some (c + w * Z.of_nat n).
Proof.
  induction n as [|n IH]; intros fuel c Hn Hfuel Hp.
  - destruct fuel; cbn [sweep];
      replace (16 * (3072 - Z.of_nat 0) <=? 0x00BFF0) with false
        by reflexivity; f_equal; lia.
  - destruct fuel as [|fuel]; [lia|].
    cbn [sweep].
    destruct (Z.leb_spec (16 * (3072 - Z.of_nat (S n))) 0x00BFF0) as [_|Hgt];
      [|change 0x00BFF0 with 49136 in Hgt; lia].
    rewrite Hp by lia.
    replace (16 * (3072 - Z.of_nat (S n)) + 16)
      with (16 * (3072 - Z.of_nat n)) by lia.
    rewrite IH; [f_equal; lia | lia | lia |].
    intros k c' Hk. apply Hp. lia.
Qed.

(** Past the end of the file the padded data is zero. *)
Lemma slice_extend_tail (file : list byte) (a : Z) :
  len file <= a -> a + 4 <= 98304 ->
  slice a (a + 4) (extend file) = [x00; x00; x00; x00].
Proof.
  intros Ha Hb. unfold extend, slice, len, zeros in *.
  rewrite skipn_app, skipn_all2 by lia. cbn [app].
  match goal with
  | |- ?l = _ =>
      assert (Hz : Forall (eq x00) l);
      [| assert (Hl : List.length l = 4%nat) ]
  end.
  - apply Forall_firstn, Forall_skipn, Forall_forall.
    intros b Hb'. symmetry. exact (repeat_spec _ _ _ Hb').
  - rewrite length_firstn, length_skipn, repeat_length. lia.
  - rewrite (Forall_eq_repeat x00 _ Hz), Hl. reflexivity.
Qed.

(** Period [k] of the padded file when [file] is a run of [x] that
    reaches the end of the period's three words: it adds [12 * x]. *)
Lemma period_extend_uniform (x : byte) (file : list byte) (k c : Z) :
  Forall (eq x) file -> 0 <= k -> 32 * k + 12 <= len file ->
  period (extend file) (16 * k) c = c + 12 * byte_val x.
Proof.
  intros Hx Hk Hlen. apply period_window. intros i Hi.
  unfold extend. apply (slice_uniform x file _ _ 4); try lia; exact Hx.
Qed.

(** Period [k] of the padded file when [file] ends before it: it adds
    nothing. *)
Lemma period_extend_tail (file : list byte) (k c : Z) :
  len file <= 32 * k -> k < 3072 ->
  period (extend file) (16 * k) c = c.
Proof.
  intros Hlen Hk.
  rewrite (period_window x00); [change (byte_val x00) with 0; lia|].
  intros i Hi. apply slice_extend_tail; lia.
Qed.

Lemma extend_zeros (n : nat) : Forall (eq x00) (extend (repeat x00 n)).
Proof.
  unfold extend, zeros. apply Forall_app. split.
  - apply Forall_forall. intros b Hb. symmetry. exact (repeat_spec _ _ _ Hb).
  - apply Forall_forall. intros b Hb. symmetry. exact (repeat_spec _ _ _ Hb).
Qed.

Lemma extend_length (file : list byte) : 98304 <= len (extend file).
Proof.
  unfold extend, zeros, len.
  rewrite length_app, repeat_length. unfold len. lia.
Qed.

Lemma period_extend_zeros (n : nat) (k c : Z) :
  0 <= k < 3072 -> period (extend (repeat x00 n)) (16 * k) c = c.
Proof.
  intros Hk.
  rewrite (period_window x00); [change (byte_val x00) with 0; lia|].
  intros i Hi.
  rewrite <- (app_nil_r (extend (repeat x00 n))).
  pose proof (extend_length (repeat x00 n)).
  apply (slice_uniform x00 _ _ _ 4); try lia. apply extend_zeros.
Qed.

(** The sweep terminates within 3072 passes on any data. *)
Lemma sweep_total (data : list byte) (n : nat) (fuel : nat) (c : Z) :
  (n <= 3072)%nat -> (n <= fuel)%nat ->
  exists v, sweep fuel data (16 * (3072 - Z.of_nat n)) c = Some v.
Proof.
  revert fuel c.
  induction n as [|n IH]; intros fuel c Hn Hfuel.
  - exists c. destruct fuel; reflexivity.
  - destruct fuel as [|fuel]; [lia|].
    cbn [sweep].
    destruct (Z.leb_spec (16 * (3072 - Z.of_nat (S n))) 0x00BFF0) as [_|Hgt];
      [|change 0x00BFF0 with 49136 in Hgt; lia].
    replace (16 * (3072 - Z.of_nat (S n)) + 16)
      with (16 * (3072 - Z.of_nat n)) by lia.
    apply IH; lia.
Qed.

(** The first [m] passes, each adding [w], hand over to the rest of the
    sweep. *)
Lemma sweep_prefix (data : list byte) (w m : Z) (n : nat) :
  forall (fuel : nat) (c : Z),
    Z.of_nat n <= m <= 3072 ->
    (forall k c', m - Z.of_nat n <= k < m ->
       period data (16 * k) c' = c' + w) ->
    sweep (n + fuel) data (16 * (m - Z.of_nat n)) c
    = sweep fuel data (16 * m) (c + w * Z.of_nat n).
Proof.
  induction n as [|n IH]; intros fuel c Hn Hp.
  - cbn [Nat.add]. f_equal; lia.
  - cbn [Nat.add sweep].
    destruct (Z.leb_spec (16 * (m - Z.of_nat (S n))) 0x00BFF0) as [_|Hgt];
      [|change 0x00BFF0 with 49136 in Hgt; lia].
    rewrite Hp by lia.
    replace (16 * (m - Z.of_nat (S n)) + 16)
      with (16 * (m - Z.of_nat n)) by lia.
    rewrite IH; [f_equal; lia | lia |].
    intros k c' Hk. apply Hp. lia.
Qed.

(** A file of [32 * m] equal bytes fills the first [m] periods and
    leaves the others to the zero padding. *)
Lemma checksum_uniform_periods (x : byte) (m : nat) (fuel : nat) :
  (m <= 3072)%nat -> (3072 <= fuel)%nat ->
  checksum fuel (repeat x (32 * m))
  = Some (12 * byte_val x * Z.of_nat m).
Proof.
  intros Hm Hfuel. unfold checksum.
  set (file := repeat x (32 * m)).
  assert (Hx : Forall (eq x) file).
  { apply Forall_forall. intros b Hb. symmetry.
    exact (repeat_spec _ _ _ Hb). }
  assert (Hl : len file = 32 * Z.of_nat m).
  { unfold len, file. rewrite repeat_length. lia. }
  replace fuel with (m + (fuel - m))%nat by lia.
  pose proof (sweep_prefix (extend file) (12 * byte_val x) (Z.of_nat m) m
                (fuel - m) 0) as H1.
  replace (16 * (Z.of_nat m - Z.of_nat m)) with 0 in H1 by lia.
  rewrite H1; [| lia |].
  - pose proof (sweep_constant (extend file) 0 (3072 - m) (fuel - m)
                  (0 + 12 * byte_val x * Z.of_nat m)) as H2.
    replace (16 * (3072 - Z.of_nat (3072 - m))) with (16 * Z.of_nat m)
      in H2 by lia.
    rewrite H2; [f_equal; lia | lia | lia |].
    intros k c Hk. rewrite period_extend_tail by lia. lia.
  - intros k c Hk. apply period_extend_uniform; [exact Hx | lia | lia].
Qed.

(** A file that ends inside the first period is sampled there only. *)
Lemma checksum_first_period (file : list byte) (fuel : nat) :
  len file <= 32 -> (3072 <= fuel)%nat ->
  checksum fuel file = Some (period (extend file) 0 0).
Proof.
  intros Hlen Hfuel. unfold checksum.
  destruct fuel as [|fuel]; [lia|].
  cbn [sweep]. change (0 <=? 0x00BFF0) with true. cbv iota.
  change (0 + 16) with (16 * (3072 - Z.of_nat 3071)).
  rewrite (sweep_constant _ 0 3071); [f_equal; lia | lia | lia |].
  intros k c Hk. rewrite period_extend_tail by lia. lia.
Qed.

End Sweep.

(** C1 (as stated, refuted).  The cursor of [sim_crc2.py] counts
    two-byte units ([byte_addr = crc_address * 2]) and the file is
    padded with zeros to 98304 bytes, so a 48 KB payload of [0x01] bytes
    fills only the first 1536 of the 3072 periods: the sweep returns
    [12 * 1536], not [12 * (floor(0x00BFF0 / 16) + 1)]. *)
Lemma partial_sample_48k_of_ones :
  SimCrc2.checksum 3072 (repeat x01 (32 * 1536)) = Some (12 * 1536)
  /\ SimCrc2.checksum 3072 (repeat x01 (32 * 1536))
     <> Some (12 * (0x00BFF0 / 16 + 1)).
Proof.
  rewrite (checksum_uniform_periods x01 1536 3072) by lia.
  split; [reflexivity | discriminate].
Qed.

(** C1 (amended).  Partial-sample mode as [sim_crc2.py] fixes it (cursor
    step 16, three 4-byte words per period, cursor bound [0x00BFF0]
    compared with [<=]): given fuel for its 3072 passes, the sweep
    returns [0] on a file of zero bytes of any length, and
    [12 * (floor(0x00BFF0 / 16) + 1)] on a file of [0x01] bytes that
    covers every sampled byte (at least 98284 bytes). *)
Theorem partial_sample_zero_and_one (fuel : nat) :
  (3072 <= fuel)%nat ->
  (forall n : nat, SimCrc2.checksum fuel (repeat x00 n) = Some 0x00000000)
  /\ (forall n : nat, 98284 <= Z.of_nat n ->
        SimCrc2.checksum fuel (repeat x01 n)
        = Some (12 * periods_swept)).
Proof.
  intros Hfuel. split.
  - intros n. unfold SimCrc2.checksum.
    pose proof (sweep_constant (SimCrc2.extend (repeat x00 n)) 0
                  3072 fuel 0 (le_n _) Hfuel) as H.
    change (16 * (3072 - Z.of_nat 3072)) with 0 in H.
    rewrite H; [reflexivity|].
    intros k c Hk. rewrite period_extend_zeros by lia. lia.
  - intros n Hn. unfold SimCrc2.checksum.
    pose proof (sweep_constant (SimCrc2.extend (repeat x01 n))
                  (12 * byte_val x01) 3072 fuel 0 (le_n _) Hfuel) as H.
    assert (Hx : Forall (eq x01) (repeat x01 n)).
    { apply Forall_forall. intros b Hb. symmetry.
      exact (repeat_spec _ _ _ Hb). }
    assert (Hl : 98284 <= len (repeat x01 n)).
    { unfold len. rewrite repeat_length. exact Hn. }
    change (16 * (3072 - Z.of_nat 3072)) with 0 in H.
    rewrite H; [reflexivity|].
    intros k c Hk. apply period_extend_uniform; [exact Hx | lia | lia].
Qed.

Lemma partial_sample_zero_and_one_witness :
  SimCrc2.checksum 3072 (repeat x00 5) = Some 0
  /\ SimCrc2.checksum 3072 (repeat x01 (Z.to_nat 98304)) = Some 36864.
Proof.
  destruct (partial_sample_zero_and_one 3072 (le_n _)) as [H0 H1].
  split.
  - exact (H0 5%nat).
  - apply (H1 (Z.to_nat 98304)). vm_compute. discriminate.
Defined.

(** A short file of [0x01] bytes is padded with zeros before the sweep,
    so the sum counts only the bytes present. *)
Lemma partial_sample_short_file :
  SimCrc2.checksum 3072 [x01] = Some 1.
Proof.
  rewrite checksum_first_period by (try reflexivity; vm_compute; discriminate).
  vm_compute. reflexivity.
Qed.

(** More fuel never changes the value the sweep returns. *)
Lemma sweep_fuel_mono (data : list byte) (fuel fuel' : nat) (a c v : Z) :
  (fuel <= fuel')%nat ->
  SimCrc2.sweep fuel data a c = Some v ->
  SimCrc2.sweep fuel' data a c = Some v.
Proof.
  revert fuel' a c.
  induction fuel as [|fuel IH]; intros fuel' a c Hle H.
  - destruct fuel'; cbn [SimCrc2.sweep] in *;
      destruct (a <=? 0x00BFF0); congruence.
  - destruct fuel' as [|fuel']; [lia|].
    cbn [SimCrc2.sweep] in *.
    destruct (a <=? 0x00BFF0); [|exact H].
    apply IH; [lia | exact H].
Qed.

(** * The full sum of sim_crc3.py and verify_checksum.py *)

Section FullSum.

Lemma payload_window (data : list byte) :
  SimCrc3.payload data = slice 128 49664 data.
Proof. reflexivity. Qed.

Lemma payload_after_header (header body : list byte) :
  len header = 128 -> len body = 49536 ->
  SimCrc3.payload (header ++ body) = body.
Proof.
  intros Hh Hb. unfold SimCrc3.payload.
  change 128 with (128 + 0) at 1. rewrite <- Hh, Z.add_0_r.
  rewrite slice_skip_prefix by (unfold SimCrc3.payload_len; lia).
  apply firstn_all2. unfold len in Hb. unfold SimCrc3.payload_len. lia.
Qed.

End FullSum.

(** C2 (as stated, refuted). With a 128-byte header followed by 49536
    bytes of [0xFF], [sd_checksum] returns [49536 * 0xFF mod 2^32], and
    that number is not [0x00C4C140]. *)
Lemma full_sum_ff_not_C4C140 :
  SimCrc3.sd_checksum (repeat x00 128 ++ repeat xff (Z.to_nat 49536))
  = 49536 * 0xFF mod 2 ^ 32
  /\ SimCrc3.sd_checksum (repeat x00 128 ++ repeat xff (Z.to_nat 49536))
     <> 0x00C4C140.
Proof.
  split.
  - vm_compute. reflexivity.
  - vm_compute. discriminate.
Qed.

(** C2 (amended). With [header_skip_bytes = 128], [total_sectors = 97],
    [block_size = 512] the full sum is taken over bytes [128:49664]:
    [sd_checksum] is the arithmetic sum of that slice modulo 2^32, and on
    a 49664-byte file [calculate_sum] with [skip_header = 128] returns
    the same number.  When the 49536 bytes after the header are all
    [0xFF] the checksum is [49536 * 0xFF mod 2^32 = 0x00C0BE80]. *)
Theorem full_sum_header_skip :
  (forall data : list byte,
     SimCrc3.sd_checksum data = sum_bytes (slice 128 49664 data) mod 2 ^ 32)
  /\ (forall data : list byte, len data = 49664 ->
        VerifyChecksum.calculate_sum (Some data) 128
        = Some (SimCrc3.sd_checksum data))
  /\ (forall header : list byte, len header = 128 ->
        SimCrc3.sd_checksum (header ++ repeat xff (Z.to_nat 49536))
        = 49536 * 0xFF mod 2 ^ 32
        /\ 49536 * 0xFF mod 2 ^ 32 = 0x00C0BE80).
Proof.
  split; [|split].
  - intros data. unfold SimCrc3.sd_checksum.
    rewrite sum32_mod, payload_window. reflexivity.
  - intros data Hlen.
    unfold VerifyChecksum.calculate_sum, SimCrc3.sd_checksum.
    change (0 <? 128) with true. cbv iota.
    rewrite sum32_mod, payload_window.
    assert (Hs : slice 128 49664 data = slice_from 128 data).
    { unfold slice, slice_from. apply firstn_all2.
      rewrite length_skipn. unfold len in Hlen. lia. }
    rewrite Hs. f_equal. symmetry. apply Z.mod_small.
    pose proof (sum_bytes_nonneg (slice_from 128 data)).
    pose proof (sum_bytes_bound (slice_from 128 data)) as Hb.
    unfold slice_from, len in *. rewrite length_skipn in Hb. lia.
  - intros header Hh. split; [|reflexivity].
    unfold SimCrc3.sd_checksum.
    rewrite payload_after_header;
      [| exact Hh | unfold len; rewrite repeat_length; lia].
    rewrite sum32_mod, sum_bytes_repeat. reflexivity.
Qed.

Lemma full_sum_header_skip_witness :
  SimCrc3.sd_checksum (repeat x2a 128 ++ repeat xff (Z.to_nat 49536))
  = 0x00C0BE80.
Proof.
  destruct full_sum_header_skip as [_ [_ H]].
  destruct (H (repeat x2a 128)) as [H1 H2].
  - reflexivity.
  - rewrite H1. exact H2.
Defined.

(** * Permutations of the payload *)

(** C8. The full sum does not depend on the order of the payload bytes:
    the masked 32-bit accumulation of [sim_crc3.py] and [calculate_sum]
    (with or without a header to skip) give the same total on a
    reordered payload.  The partial-sample sweep of [sim_crc2.py] does:
    there are a payload and a reordering of it on which it returns
    different values. *)
Theorem full_sum_order_independent_partial_not :
  (forall p p' : list byte, Permutation p p' ->
     SimCrc3.sum32 p = SimCrc3.sum32 p'
     /\ VerifyChecksum.calculate_sum (Some p) 0
        = VerifyChecksum.calculate_sum (Some p') 0
     /\ forall header : list byte,
          VerifyChecksum.calculate_sum (Some (header ++ p)) (len header)
          = VerifyChecksum.calculate_sum (Some (header ++ p')) (len header))
  /\ (exists (p p' : list byte) (v v' : Z),
        Permutation p p' /\ v <> v'
        /\ forall fuel : nat, (3072 <= fuel)%nat ->
             SimCrc2.checksum fuel p = Some v
             /\ SimCrc2.checksum fuel p' = Some v').
Proof.
  split.
  - intros p p' Hperm. split; [|split].
    + rewrite !sum32_mod, (sum_bytes_perm p p' Hperm). reflexivity.
    + unfold VerifyChecksum.calculate_sum. change (0 <? 0) with false.
      cbv iota. rewrite (sum_bytes_perm p p' Hperm). reflexivity.
    + intros header. unfold VerifyChecksum.calculate_sum.
      destruct (0 <? len header) eqn:Hpos.
      * unfold slice_from, len. rewrite Nat2Z.id, !skipn_app, !skipn_all.
        rewrite Nat.sub_diag. cbn [skipn app].
        rewrite (sum_bytes_perm p p' Hperm). reflexivity.
      * rewrite !sum_bytes_app, (sum_bytes_perm p p' Hperm). reflexivity.
  - exists (x01 :: repeat x00 12), (repeat x00 12 ++ [x01]), 1, 0.
    split; [|split].
    + apply Permutation_cons_append.
    + discriminate.
    + intros fuel Hfuel.
      rewrite !checksum_first_period
        by (try exact Hfuel; vm_compute; discriminate).
      split; vm_compute; reflexivity.
Qed.

Lemma full_sum_order_independent_partial_not_witness :
  SimCrc3.sum32 [x01; xff; x10] = SimCrc3.sum32 [xff; x01; x10].
Proof.
  destruct full_sum_order_independent_partial_not as [H _].
  destruct (H [x01; xff; x10] [xff; x01; x10]) as [Hs _].
  - apply perm_swap.
  - exact Hs.
Defined.

(** * Placement of load addresses (sim_offset.py) *)

Section Placement.

Import SimOffset.

Lemma byte_sel_mod (a : Z) : byte_sel a = a mod 4.
Proof.
unfold byte_sel. change 3 with (Z.ones 2). apply Z.land_ones. lia.
Qed.

Lemma word_sel_mod (a : Z) : word_sel a = (a / 4) mod 4.
Proof.
unfold word_sel. change 3 with (Z.ones 2).
rewrite Z.land_ones, Z.shiftr_div_pow2 by lia. reflexivity.
Qed.

Lemma shiftr_2_div (a : Z) : Z.shiftr a 2 = a / 4.
Proof. rewrite Z.shiftr_div_pow2 by lia. reflexivity. Qed.

Lemma shiftr_4_div (a : Z) : Z.shiftr a 4 = a / 16.
Proof. rewrite Z.shiftr_div_pow2 by lia. reflexivity. Qed.

(** The printed selectors rebuild the address together with the burst
  number [a >> 4]. *)
Lemma burst_decomposition (a : Z) :
a = 16 * Z.shiftr a 4 + 4 * word_sel a + byte_sel a
/\ 0 <= word_sel a < 4 /\ 0 <= byte_sel a < 4.
Proof.
rewrite shiftr_4_div, word_sel_mod, byte_sel_mod.
pose proof (Z.div_mod a 4 ltac:(lia)).
pose proof (Z.div_mod (a / 4) 4 ltac:(lia)).
pose proof (Z.mod_pos_bound a 4 ltac:(lia)).
pose proof (Z.mod_pos_bound (a / 4) 4 ltac:(lia)).
replace (a / 16) with (a / 4 / 4)
  by (rewrite Z.div_div by lia; reflexivity).
lia.
Qed.

End Placement.

(** The script's word selector is the word index masked to a burst. *)
Lemma word_sel_masks_word_index (a : Z) :
  SimOffset.word_sel a = Z.land (word_index a) 3.
Proof. reflexivity. Qed.

(** An address is rebuilt from its word index and byte lane. *)
Lemma word_lane_decomposition (a : Z) :
  a = 4 * word_index a + SimOffset.byte_sel a
  /\ 0 <= SimOffset.byte_sel a < 4.
Proof.
  unfold word_index. rewrite shiftr_2_div, byte_sel_mod.
  pose proof (Z.div_mod a 4 ltac:(lia)).
  pose proof (Z.mod_pos_bound a 4 ltac:(lia)). lia.
Qed.

(** C7.  For distinct addresses [a], [b] in [[0, payload_length)] the
    placement pairs [(a >> 2, a & 3)] and [(b >> 2, b & 3)] are
    distinct, and the pair of the smaller address comes strictly first
    in the lexicographic order: no two payload bytes share a
    (word index, byte lane). *)
Theorem placement_unique_and_increasing (payload_length a b : Z) :
  0 <= a < payload_length -> 0 <= b < payload_length -> a <> b ->
  (word_index a, SimOffset.byte_sel a)
  <> (word_index b, SimOffset.byte_sel b)
  /\ (a < b ->
      lex_lt (word_index a, SimOffset.byte_sel a)
             (word_index b, SimOffset.byte_sel b))
  /\ (b < a ->
      lex_lt (word_index b, SimOffset.byte_sel b)
             (word_index a, SimOffset.byte_sel a)).
Proof.
  intros Ha Hb Hne.
  destruct (word_lane_decomposition a) as [Hda Hla].
  destruct (word_lane_decomposition b) as [Hdb Hlb].
  split; [|split].
  - intros Heq. injection Heq as Hw Hl. rewrite Hw, Hl in Hda. lia.
  - intros Hlt. unfold lex_lt. cbn [fst snd]. lia.
  - intros Hlt. unfold lex_lt. cbn [fst snd]. lia.
Qed.

Lemma placement_unique_and_increasing_witness :
  lex_lt (word_index 3, SimOffset.byte_sel 3)
         (word_index 16, SimOffset.byte_sel 16)
  /\ (word_index 3, SimOffset.byte_sel 3)
     <> (word_index 16, SimOffset.byte_sel 16).
Proof.
  destruct (placement_unique_and_increasing 49536 3 16) as (Hne & Hlt & _);
    try lia.
  split; [apply Hlt; lia | exact Hne].
Defined.

(** The table [sim_offset.py] prints shows the word within the burst,
    [(a >> 2) & 3], not the word index: over its own range of 32
    addresses the printed pairs repeat, addresses 0 and 16 both giving
    word 0, byte 0. *)
Lemma placement_pairs_repeat :
  ~ (forall a b : Z, 0 <= a < 32 -> 0 <= b < 32 -> a <> b ->
       (SimOffset.word_sel a, SimOffset.byte_sel a)
       <> (SimOffset.word_sel b, SimOffset.byte_sel b))
  /\ ~ NoDup (SimOffset.mapping 32).
Proof.
  split.
  - intros H. apply (H 0 16); [lia | lia | lia | reflexivity].
  - intros H.
    pose proof (proj1 (NoDup_nth (SimOffset.mapping 32) (0, 0)) H
                  0%nat 16%nat) as Hnth.
    cbn [SimOffset.mapping List.length length_map] in Hnth.
    assert (Habs : 0%nat = 16%nat); [|discriminate Habs].
    apply Hnth; [vm_compute; lia | vm_compute; lia | reflexivity].
Qed.

(** Within one 16-byte burst ([a >> 4 = b >> 4]) the printed pairs are
    strictly increasing, and an address is rebuilt from its burst
    number and its printed pair. *)
Lemma printed_pairs_within_burst (a b : Z) :
  0 <= a -> a < b ->
  (Z.shiftr a 4 = Z.shiftr b 4 ->
     lex_lt (SimOffset.word_sel a, SimOffset.byte_sel a)
            (SimOffset.word_sel b, SimOffset.byte_sel b))
  /\ a = 16 * Z.shiftr a 4 + 4 * SimOffset.word_sel a + SimOffset.byte_sel a.
Proof.
  intros Ha Hab.
  destruct (burst_decomposition a) as [Hda [Hwa Hba]].
  destruct (burst_decomposition b) as [Hdb [Hwb Hbb]].
  split; [|exact Hda].
  intros Hburst. rewrite Hburst in Hda.
  unfold lex_lt. cbn [fst snd]. lia.
Qed.

(** * The sector loader (replace_loader.py) *)

(** Reduce register projections, and one tick of the machine once the
    state and the inputs of the tick are known. *)
Ltac regs_simpl :=
  cbn [Loader.sd_state Loader.sd_address Loader.sd_rd Loader.byte_in_sector
       Loader.psram_wr_req Loader.psram_load_addr Loader.current_sector
       Loader.load_complete Loader.game_loaded Loader.sd_ready
       Loader.sd_status Loader.sd_byte_available Loader.sd_byte_available_d
       Loader.set_state Loader.byte_edge Loader.strobe_up Loader.strobe_down
       Loader.busy Loader.card_idle andb negb app].

Ltac tick :=
  cbn [Loader.run Loader.committed Loader.read_requests Loader.states
       Loader.step
       Loader.sd_state Loader.sd_address Loader.sd_rd Loader.byte_in_sector
       Loader.psram_wr_req Loader.psram_load_addr Loader.current_sector
       Loader.load_complete Loader.game_loaded Loader.sd_ready
       Loader.sd_status Loader.sd_byte_available Loader.sd_byte_available_d
       Loader.set_state Loader.byte_edge Loader.strobe_up Loader.strobe_down
       Loader.busy Loader.card_idle andb negb app].

Section LoaderFacts.

Import Loader.

Variable GAME_SIZE_SECTORS : Z.

Local Abbreviation step := (Loader.step GAME_SIZE_SECTORS).
Local Abbreviation run := (Loader.run GAME_SIZE_SECTORS).
Local Abbreviation states := (Loader.states GAME_SIZE_SECTORS).
Local Abbreviation committed := (Loader.committed GAME_SIZE_SECTORS).
Local Abbreviation read_requests := (Loader.read_requests GAME_SIZE_SECTORS).

Lemma run_app (r : regs) (t1 t2 : list inputs) :
run r (t1 ++ t2) = run (run r t1) t2.
Proof.
revert r. induction t1 as [|i t1 IH]; intros r; [reflexivity|].
cbn [app Loader.run]. apply IH.
Qed.

Lemma committed_app (r : regs) (t1 t2 : list inputs) :
committed r (t1 ++ t2) = committed r t1 + committed (run r t1) t2.
Proof.
revert r. induction t1 as [|i t1 IH]; intros r; [reflexivity|].
cbn [app Loader.run Loader.committed]. rewrite IH. lia.
Qed.

Lemma read_requests_app (r : regs) (t1 t2 : list inputs) :
read_requests r (t1 ++ t2)
= read_requests r t1 ++ read_requests (run r t1) t2.
Proof.
revert r. induction t1 as [|i t1 IH]; intros r; [reflexivity|].
cbn [app Loader.run Loader.read_requests].
destruct (sd_state r); rewrite IH; reflexivity.
Qed.

(** In [SD_IDLE] a tick whose status is not 6 changes no register. *)
Lemma idle_step_parked (r : regs) (i : inputs) :
sd_state r = SD_IDLE -> sd_status i <> 6 -> step r i = r.
Proof.
intros Hst Hi. unfold Loader.step. rewrite Hst.
destruct (Z.eqb_spec (sd_status i) 6) as [E|_]; [contradiction|].
rewrite andb_false_r. reflexivity.
Qed.

(** [SD_COMPLETE] is absorbing and raises both flags. *)
Lemma complete_step (r : regs) (i : inputs) :
sd_state r = SD_COMPLETE ->
sd_state (step r i) = SD_COMPLETE
/\ load_complete (step r i) = true /\ game_loaded (step r i) = true.
Proof.
intros Hst. unfold Loader.step. rewrite Hst. repeat split.
Qed.

(** The write address moves only when a byte is committed. *)
Lemma load_addr_counts_commits (r : regs) (trace : list inputs) :
psram_load_addr (run r trace) = psram_load_addr r + committed r trace.
Proof.
revert r. induction trace as [|i trace IH]; intros r.
- cbn. lia.
- cbn [Loader.run Loader.committed]. rewrite IH.
  unfold Loader.step, byte_edge.
  destruct (sd_state r);
    destruct (sd_ready i), (sd_status i =? 6), (byte_in_sector r <? 512),
      (byte_in_sector r =? 511), (sd_byte_available i),
      (sd_byte_available_d i), (current_sector r =? GAME_SIZE_SECTORS - 1);
    cbn [psram_load_addr set_state negb andb]; lia.
Qed.

(** [n] bytes strobed into [SD_LOAD_DATA] before the last byte of the
  sector: each one is committed. *)
Lemma bytes_run (n : nat) (r : regs) :
sd_state r = SD_LOAD_DATA ->
byte_in_sector r + Z.of_nat n <= 511 ->
let r' := run r (byte_ticks n) in
sd_state r' = SD_LOAD_DATA
/\ byte_in_sector r' = byte_in_sector r + Z.of_nat n
/\ current_sector r' = current_sector r
/\ load_complete r' = load_complete r
/\ game_loaded r' = game_loaded r
/\ committed r (byte_ticks n) = Z.of_nat n
/\ read_requests r (byte_ticks n) = [].
Proof.
revert r. induction n as [|n IH]; intros r Hst Hb.
- cbn. repeat split; first [assumption | reflexivity | lia].
- destruct r as [st sa rd b wr a cs lc gl]. cbn in Hst. subst st.
  cbn [byte_in_sector] in Hb.
  cbn [byte_ticks]. tick. tick.
  destruct (Z.eqb_spec b 511) as [E|_]; [lia|]. tick.
  specialize (IH (mkRegs SD_LOAD_DATA sa rd (b + 1) true (a + 1) cs lc gl)
                eq_refl).
  regs_simpl. cbn [byte_in_sector current_sector load_complete game_loaded]
    in IH.
  destruct IH as (H1 & H2 & H3 & H4 & H5 & H6 & H7); [lia|].
  rewrite H6, H7. repeat split; first [assumption | reflexivity | lia].
Qed.

(** One sector served from [SD_LOAD_START], with the number of bytes
  before the last one kept abstract. *)
Lemma sector_run_split (n : nat) (r : regs) :
sd_state r = SD_LOAD_START -> Z.of_nat n = 511 ->
let trace := busy :: busy :: byte_ticks n ++ byte_ticks 1 in
let r' := run r trace in
committed r trace = 512
/\ read_requests r trace = [current_sector r]
/\ load_complete r' = load_complete r
/\ game_loaded r' = game_loaded r
/\ (current_sector r = GAME_SIZE_SECTORS - 1 ->
      sd_state r' = SD_COMPLETE /\ current_sector r' = current_sector r)
/\ (current_sector r <> GAME_SIZE_SECTORS - 1 ->
      sd_state r' = SD_LOAD_START
      /\ current_sector r' = current_sector r + 1).
Proof.
intros Hst Hn.
destruct r as [st sa rd b wr a cs lc gl]. cbn in Hst. subst st.
cbv zeta. tick.
set (r0 := mkRegs SD_LOAD_DATA cs false 0 wr a cs lc gl).
rewrite run_app, committed_app, read_requests_app.
destruct (bytes_run n r0 eq_refl) as (H1 & H2 & H3 & H4 & H5 & H6 & H7);
  [cbn [byte_in_sector r0]; lia|].
rewrite H6, H7.
destruct (run r0 (byte_ticks n)) as [st' sa' rd' b' wr' a' cs' lc' gl'].
cbn [sd_state byte_in_sector current_sector load_complete game_loaded r0]
  in H1, H2, H3, H4, H5.
subst st' cs' lc' gl'.
assert (Hb : b' = 511) by lia. clear H2. subst b'.
cbn [byte_ticks]. tick.
change (511 =? 511) with true. cbv iota. tick.
destruct (Z.eqb_spec cs (GAME_SIZE_SECTORS - 1)) as [E|NE]; regs_simpl;
  repeat split; intros;
  first [reflexivity | contradiction | lia].
Qed.

Lemma sector_ticks_split :
sector_ticks = busy :: busy :: byte_ticks 511 ++ byte_ticks 1.
Proof. reflexivity. Qed.

(** One sector served from [SD_LOAD_START]: one read request for the
  current sector, 512 bytes committed, and then [SD_COMPLETE] if this
  was sector [GAME_SIZE_SECTORS - 1], else [SD_LOAD_START] on the next
  sector. *)
Lemma sector_run (r : regs) :
sd_state r = SD_LOAD_START ->
let r' := run r sector_ticks in
committed r sector_ticks = 512
/\ read_requests r sector_ticks = [current_sector r]
/\ load_complete r' = load_complete r
/\ game_loaded r' = game_loaded r
/\ (current_sector r = GAME_SIZE_SECTORS - 1 ->
      sd_state r' = SD_COMPLETE /\ current_sector r' = current_sector r)
/\ (current_sector r <> GAME_SIZE_SECTORS - 1 ->
      sd_state r' = SD_LOAD_START
      /\ current_sector r' = current_sector r + 1).
Proof.
intros Hst. rewrite sector_ticks_split.
apply (sector_run_split 511 r Hst). reflexivity.
Qed.

Lemma sectors_ticks_snoc (k : nat) :
sectors_ticks (S k) = sectors_ticks k ++ sector_ticks.
Proof.
induction k as [|k IH].
- cbn [sectors_ticks]. rewrite app_nil_r. reflexivity.
- change (sectors_ticks (S (S k)))
    with (sector_ticks ++ sectors_ticks (S k)).
  rewrite IH at 1. rewrite app_assoc. reflexivity.
Qed.

(** [k] sectors, none of them the last: the machine is back in
  [SD_LOAD_START], [k] sectors further, after [k] read requests and
  [512 * k] committed bytes. *)
Lemma sectors_run (k : nat) (r : regs) :
sd_state r = SD_LOAD_START ->
current_sector r + Z.of_nat k <= GAME_SIZE_SECTORS - 1 ->
let r' := run r (sectors_ticks k) in
sd_state r' = SD_LOAD_START
/\ current_sector r' = current_sector r + Z.of_nat k
/\ load_complete r' = load_complete r
/\ game_loaded r' = game_loaded r
/\ committed r (sectors_ticks k) = 512 * Z.of_nat k
/\ read_requests r (sectors_ticks k)
   = map (fun j => current_sector r + Z.of_nat j) (seq 0 k).
Proof.
revert r. induction k as [|k IH]; intros r Hst Hk.
- cbn. repeat split; first [assumption | reflexivity | lia].
- cbn [sectors_ticks]. cbv zeta.
  rewrite run_app, committed_app, read_requests_app.
  destruct (sector_run r Hst) as (C & R & L & Gl & _ & Hnext).
  destruct Hnext as [Hst' Hcs']; [lia|].
  destruct (IH (run r sector_ticks) Hst') as (I1 & I2 & I3 & I4 & I5 & I6);
    [lia|].
  rewrite C, R, I5, I6, I1, I2, I3, I4, Hcs', L, Gl.
  repeat split; try lia.
  cbn [seq map app]. rewrite Z.add_0_r. f_equal.
  rewrite <- seq_shift, map_map. apply map_ext. intros j. lia.
Qed.

(** The input trace of a session respects the one-tick delay between
  [sd_byte_available] and [sd_byte_available_d]. *)
Lemma session_ticks_delayed (n : nat) :
delayed false (session_ticks n) = true.
Proof.
assert (Hb : forall k rest,
          delayed false (byte_ticks k ++ rest) = delayed false rest).
{ induction k as [|k IH]; intros rest; [reflexivity|].
  cbn [byte_ticks app delayed strobe_up strobe_down sd_byte_available
       sd_byte_available_d Bool.eqb andb]. apply IH. }
unfold session_ticks.
cbn [delayed card_idle sd_byte_available sd_byte_available_d Bool.eqb andb].
induction n as [|n IH]; [reflexivity|].
cbn [sectors_ticks]. unfold sector_ticks.
cbn [app delayed busy sd_byte_available sd_byte_available_d Bool.eqb andb].
rewrite Hb. exact IH.
Qed.

(** A whole session of [GAME_SIZE_SECTORS = n + 1] sectors from
  power-on. *)
Lemma session_run (n : nat) :
GAME_SIZE_SECTORS = Z.of_nat (S n) ->
let r' := run power_on (session_ticks (S n)) in
sd_state r' = SD_COMPLETE
/\ current_sector r' = GAME_SIZE_SECTORS - 1
/\ read_requests power_on (session_ticks (S n))
   = map Z.of_nat (seq 0 (S n))
/\ committed power_on (session_ticks (S n)) = GAME_SIZE_SECTORS * 512
/\ psram_load_addr r' = GAME_SIZE_SECTORS * 512.
Proof.
intros HG. cbv zeta.
rewrite load_addr_counts_commits.
unfold session_ticks, power_on. rewrite sectors_ticks_snoc.
tick. change (6 =? 6) with true. cbv iota. unfold set_state. tick.
set (r0 := mkRegs SD_LOAD_START 0 false 0 false 0 0 false false).
rewrite run_app, committed_app, read_requests_app.
destruct (sectors_run n r0 eq_refl) as (I1 & I2 & I3 & I4 & I5 & I6);
  [cbn [current_sector r0]; lia|].
destruct (sector_run (run r0 (sectors_ticks n)) I1)
  as (C & R & _ & _ & Hlast & _).
destruct Hlast as [Hst Hcs]; [rewrite I2; cbn [current_sector r0]; lia|].
rewrite Hst, Hcs, C, R, I5, I6, I2. cbn [current_sector r0].
repeat split; try lia.
rewrite seq_S, map_app. cbn [map]. f_equal.
Qed.

End LoaderFacts.

(** C5.  Started in [SD_IDLE], on any input trace whose status never
    equals 6 the loader stays in [SD_IDLE] after every tick: it never
    reaches [SD_LOAD_START], and no register changes. *)
Theorem idle_stall (GAME_SIZE_SECTORS : Z) (r : Loader.regs)
  (trace : list Loader.inputs) :
  Loader.sd_state r = Loader.SD_IDLE ->
  Forall (fun i => Loader.sd_status i <> 6) trace ->
  Forall (fun r' => Loader.sd_state r' = Loader.SD_IDLE)
         (Loader.states GAME_SIZE_SECTORS r trace)
  /\ ~ In Loader.SD_LOAD_START
         (map Loader.sd_state (Loader.states GAME_SIZE_SECTORS r trace))
  /\ Loader.run GAME_SIZE_SECTORS r trace = r.
Proof.
  intros Hst Htrace.
  induction Htrace as [|i trace Hi _ IH].
  - repeat split; [constructor | intros []].
  - cbn [Loader.states Loader.run map].
    rewrite (idle_step_parked GAME_SIZE_SECTORS r i Hst Hi).
    destruct IH as (IH1 & IH2 & IH3).
    repeat split.
    + constructor; assumption.
    + intros [H|H]; [congruence | exact (IH2 H)].
    + exact IH3.
Qed.

Lemma idle_stall_witness :
  Loader.sd_state
    (Loader.run 97 Loader.power_on
       [Loader.mkInputs true 0 false false;
        Loader.mkInputs true 5 true false;
        Loader.mkInputs false 7 false true])
  = Loader.SD_IDLE.
Proof.
  destruct (idle_stall 97 Loader.power_on
              [Loader.mkInputs true 0 false false;
               Loader.mkInputs true 5 true false;
               Loader.mkInputs false 7 false true]) as (_ & _ & H).
  - reflexivity.
  - repeat constructor; cbn; lia.
  - rewrite H. reflexivity.
Defined.

(** C4.  A tick in [SD_LOAD_NEXT] clears the write request and goes to
    [SD_COMPLETE] exactly when the current sector is
    [GAME_SIZE_SECTORS - 1]; otherwise it adds one to the current sector
    and goes to [SD_LOAD_START].  From [SD_COMPLETE] every later tick
    leaves the machine in [SD_COMPLETE] with [load_complete] and
    [game_loaded] set. *)
Theorem load_next_then_complete (GAME_SIZE_SECTORS : Z) (r : Loader.regs) :
  (Loader.sd_state r = Loader.SD_LOAD_NEXT ->
   forall i : Loader.inputs,
     let r' := Loader.step GAME_SIZE_SECTORS r i in
     (Loader.sd_state r' = Loader.SD_COMPLETE
      <-> Loader.current_sector r = GAME_SIZE_SECTORS - 1)
     /\ (Loader.current_sector r = GAME_SIZE_SECTORS - 1 ->
           Loader.current_sector r' = Loader.current_sector r)
     /\ (Loader.current_sector r <> GAME_SIZE_SECTORS - 1 ->
           Loader.sd_state r' = Loader.SD_LOAD_START
           /\ Loader.current_sector r' = Loader.current_sector r + 1)
     /\ Loader.psram_wr_req r' = false)
  /\ (Loader.sd_state r = Loader.SD_COMPLETE ->
      forall trace : list Loader.inputs,
        Forall (fun r' => Loader.sd_state r' = Loader.SD_COMPLETE
                          /\ Loader.load_complete r' = true
                          /\ Loader.game_loaded r' = true)
               (Loader.states GAME_SIZE_SECTORS r trace)).
Proof.
  split.
  - intros Hst i. cbv zeta. unfold Loader.step. rewrite Hst.
    destruct (Z.eqb_spec (Loader.current_sector r) (GAME_SIZE_SECTORS - 1))
      as [E|NE]; regs_simpl.
    + repeat split; intros; first [assumption | reflexivity | contradiction].
    + repeat split; intros;
        first [assumption | reflexivity | contradiction | discriminate].
  - intros Hst trace. revert r Hst.
    induction trace as [|i trace IH]; intros r Hst; [constructor|].
    cbn [Loader.states].
    destruct (complete_step GAME_SIZE_SECTORS r i Hst) as (H1 & H2 & H3).
    constructor; [repeat split; assumption|].
    apply IH. exact H1.
Qed.

Lemma load_next_then_complete_witness :
  Loader.sd_state
    (Loader.step 97
       (Loader.mkRegs Loader.SD_LOAD_NEXT 96 false 512 true 49664 96
                      false false)
       Loader.busy)
  = Loader.SD_COMPLETE.
Proof.
  destruct (load_next_then_complete 97
              (Loader.mkRegs Loader.SD_LOAD_NEXT 96 false 512 true 49664 96
                             false false)) as [H _].
  destruct (H eq_refl Loader.busy) as [[_ Hc] _].
  apply Hc. reflexivity.
Defined.


(** * The provisioner (write_games_to_sd.py) *)

Section ProvisionerFacts.

Import Provisioner.

(** [ceil_div] is the ceiling: the least number of [d]-sized blocks that
  hold [n] bytes. *)
Lemma ceil_div_least (n d : Z) :
0 < d ->
n <= ceil_div n d * d /\ (ceil_div n d - 1) * d < n.
Proof.
intros Hd. unfold ceil_div.
pose proof (Z.div_mod n d ltac:(lia)).
pose proof (Z.mod_pos_bound n d Hd).
destruct (Z.eqb_spec (n mod d) 0); nia.
Qed.

(** The rounding of the script is the ceiling. *)
Lemma blocks_needed_ceil (game_size : Z) :
blocks_needed game_size = ceil_div game_size BLOCK_SIZE.
Proof.
unfold blocks_needed, ceil_div, BLOCK_SIZE.
pose proof (Z.div_mod game_size 512 ltac:(lia)).
pose proof (Z.mod_pos_bound game_size 512 ltac:(lia)).
pose proof (Z.div_mod (game_size + 512 - 1) 512 ltac:(lia)).
pose proof (Z.mod_pos_bound (game_size + 512 - 1) 512 ltac:(lia)).
destruct (Z.eqb_spec (game_size mod 512) 0); lia.
Qed.

Lemma blocks_needed_capacity (game_size : Z) :
blocks_needed game_size > BLOCKS_PER_GAME
<-> game_size > BLOCKS_PER_GAME * BLOCK_SIZE.
Proof.
unfold blocks_needed, BLOCKS_PER_GAME, BLOCK_SIZE.
pose proof (Z.div_mod (game_size + 512 - 1) 512 ltac:(lia)).
pose proof (Z.mod_pos_bound (game_size + 512 - 1) 512 ltac:(lia)).
lia.
Qed.

Lemma prefix_iff (s1 s2 : string) :
String.prefix s1 s2 = true <-> exists post, s2 = String.append s1 post.
Proof.
revert s2. induction s1 as [|a s1 IH]; intros s2.
- split; [intros _; exists s2; reflexivity|].
  intros _. destruct s2; reflexivity.
- destruct s2 as [|b s2]; cbn.
  + split; [discriminate | intros [post H]; discriminate].
  + destruct (ascii_dec a b) as [E|NE].
    * subst b. rewrite IH. split; intros [post H]; exists post.
      -- rewrite H. reflexivity.
      -- injection H as H. exact H.
    * split; [discriminate|].
      intros [post H]. injection H as Hc _. congruence.
Qed.

(** [contains] is the substring test. *)
Lemma contains_iff (needle hay : string) :
contains needle hay = true
<-> exists pre post,
      hay = String.append pre (String.append needle post).
Proof.
induction hay as [|c hay IH]; cbn [contains].
- rewrite orb_false_r, prefix_iff. split.
  + intros [post H]. exists EmptyString, post. exact H.
  + intros [pre [post H]]. destruct pre; [|discriminate].
    exists post. exact H.
- rewrite orb_true_iff, prefix_iff, IH. split.
  + intros [[post H]|[pre [post H]]].
    * exists EmptyString, post. exact H.
    * exists (String c pre), post. rewrite H. reflexivity.
  + intros [pre [post H]]. destruct pre as [|c' pre].
    * left. exists post. exact H.
    * right. injection H as _ H. exists pre, post. exact H.
Qed.

End ProvisionerFacts.

(** C6.  [write_game_to_blocks] takes the size-error branch exactly when
    [ceil(len(image) / BLOCK_SIZE) > BLOCKS_PER_GAME] (100), and on that
    branch it returns [False] without having made any call on the block
    device: nothing is opened, nothing is written. *)
Theorem oversize_rejected_iff (dev : Provisioner.device)
  (game_data : list byte) (game_number : Z) :
  let o := Provisioner.write_game_to_blocks dev game_data game_number in
  (Provisioner.oversize_rejected o = true
   <-> ceil_div (len game_data) Provisioner.BLOCK_SIZE
       > Provisioner.BLOCKS_PER_GAME)
  /\ (Provisioner.oversize_rejected o = true ->
        Provisioner.returned o = false
        /\ Provisioner.device_calls o = []).
Proof.
  cbv zeta. rewrite <- blocks_needed_ceil.
  unfold Provisioner.write_game_to_blocks.
  destruct (Z.gtb_spec (Provisioner.blocks_needed (len game_data))
                       Provisioner.BLOCKS_PER_GAME) as [Hgt|Hle].
  - cbn. split; [split; [lia | reflexivity] | intros _; split; reflexivity].
  - destruct (Provisioner.attempt dev
                (Provisioner.write_ops game_data game_number))
      as [made [[|]|]]; cbn;
      (split; [split; [discriminate | lia] | discriminate]).
Qed.

Lemma oversize_rejected_iff_witness :
  Provisioner.device_calls
    (Provisioner.write_game_to_blocks (fun _ => None)
       (repeat xff (Z.to_nat 51201)) 0)
  = [].
Proof.
  destruct (oversize_rejected_iff (fun _ => None)
              (repeat xff (Z.to_nat 51201)) 0) as [_ H].
  destruct H as [_ Hcalls]; [vm_compute; reflexivity | exact Hcalls].
Defined.

(** C9.  Slot [n] starts at block [1 + n * BLOCKS_PER_GAME] with
    [BLOCKS_PER_GAME = 100]; slot 2 starts at block 201, and the writer
    seeks to byte [201 * 512 = 102912] of the medium before it writes
    the image. *)
Theorem slot_start_block :
  Provisioner.BLOCKS_PER_GAME = 100
  /\ (forall n : Z,
        Provisioner.start_block n = 1 + n * Provisioner.BLOCKS_PER_GAME
        /\ Provisioner.offset n = (1 + n * 100) * 512)
  /\ Provisioner.start_block 2 = 201
  /\ Provisioner.offset 2 = 201 * 512
  /\ Provisioner.offset 2 = 102912
  /\ (forall game_data : list byte,
        firstn 3 (Provisioner.write_ops game_data 2)
        = [Provisioner.Open; Provisioner.Seek 102912;
           Provisioner.Write game_data]).
Proof.
  repeat split.
Qed.

(** C10.  When the device path given on the command line contains
    [/dev/disk0] or [/dev/disk1] as a substring, [main] exits with
    status 1 and no call has been made on the device; [/dev/disk10]
    contains [/dev/disk1], so it is refused too. *)
Theorem main_refuses_system_disks (e : Provisioner.env)
  (argv : list string) (sd_device : string) :
  nth_error argv 1 = Some sd_device ->
  Provisioner.contains "/dev/disk0" sd_device = true
  \/ Provisioner.contains "/dev/disk1" sd_device = true ->
  Provisioner.main e argv = (Provisioner.Exit 1, [])
  /\ Provisioner.contains "/dev/disk1" "/dev/disk10" = true.
Proof.
  intros Hdev Hsub. split; [|reflexivity].
  unfold Provisioner.main.
  destruct (Z.of_nat (List.length argv) <? 3); [reflexivity|].
  rewrite (nth_error_nth argv 1 EmptyString Hdev).
  destruct (Provisioner.path_exists e sd_device); [|reflexivity].
  cbn [negb].
  destruct Hsub as [H|H]; rewrite H; [|rewrite orb_true_r]; reflexivity.
Qed.

Lemma main_refuses_system_disks_witness :
  Provisioner.main
    (Provisioner.mkEnv (fun _ => true) (fun _ => [x01; x02]) "YES"
                       (fun _ => None))
    ["write_games_to_sd.py"; "/dev/disk10"; "astrowing.a78"]%string
  = (Provisioner.Exit 1, []).
Proof.
  apply (main_refuses_system_disks _ _ "/dev/disk10").
  - reflexivity.
  - right. reflexivity.
Defined.

(** * Further properties of the scripts *)

(** ** sim_crc2.py: passes, range, and the bytes that are never read *)

Section SweepMore.

Import SimCrc2.

Lemma slice_short (a : Z) (d : list byte) :
  (List.length (slice a (a + 4) d) <= 4)%nat.
Proof.
  unfold slice. rewrite length_firstn. lia.
Qed.

Lemma add_word_sum (data : list byte) (byte_addr c i : Z) :
  add_word data byte_addr c i
  = c + sum_bytes (slice (byte_addr + i * 4) (byte_addr + i * 4 + 4) data).
Proof. unfold add_word. apply fold_add_acc. Qed.

(** A period adds between 0 and [12 * 255]. *)
Lemma period_range (data : list byte) (a c : Z) :
  c <= period data a c <= c + 3060.
Proof.
  unfold period. cbn [fold_left]. rewrite !add_word_sum.
  pose proof (sum_bytes_nonneg (slice (a * 2 + 0 * 4) (a * 2 + 0 * 4 + 4) data)).
  pose proof (sum_bytes_nonneg (slice (a * 2 + 1 * 4) (a * 2 + 1 * 4 + 4) data)).
  pose proof (sum_bytes_nonneg (slice (a * 2 + 2 * 4) (a * 2 + 2 * 4 + 4) data)).
  pose proof (sum_bytes_bound (slice (a * 2 + 0 * 4) (a * 2 + 0 * 4 + 4) data)).
  pose proof (sum_bytes_bound (slice (a * 2 + 1 * 4) (a * 2 + 1 * 4 + 4) data)).
  pose proof (sum_bytes_bound (slice (a * 2 + 2 * 4) (a * 2 + 2 * 4 + 4) data)).
  pose proof (slice_short (a * 2 + 0 * 4) data).
  pose proof (slice_short (a * 2 + 1 * 4) data).
  pose proof (slice_short (a * 2 + 2 * 4) data).
  unfold len in *. lia.
Qed.

(** With fewer than the passes still due, the fuel runs out. *)
Lemma sweep_starved (data : list byte) (fuel : nat) :
  forall (n : nat) (c : Z),
    (fuel < n)%nat -> (n <= 3072)%nat ->
    sweep fuel data (16 * (3072 - Z.of_nat n)) c = None.
Proof.
  induction fuel as [|fuel IH]; intros n c Hlt Hn.
  - cbn [sweep].
    destruct (Z.leb_spec (16 * (3072 - Z.of_nat n)) 0x00BFF0) as [_|Hgt];
      [reflexivity | change 0x00BFF0 with 49136 in Hgt; lia].
  - destruct n as [|n]; [lia|]. cbn [sweep].
    destruct (Z.leb_spec (16 * (3072 - Z.of_nat (S n))) 0x00BFF0) as [_|Hgt];
      [|change 0x00BFF0 with 49136 in Hgt; lia].
    replace (16 * (3072 - Z.of_nat (S n)) + 16)
      with (16 * (3072 - Z.of_nat n)) by lia.
    apply IH; lia.
Qed.

Lemma sweep_range (data : list byte) (n : nat) :
  forall (fuel : nat) (c : Z),
    (n <= 3072)%nat -> (n <= fuel)%nat ->
    exists v, sweep fuel data (16 * (3072 - Z.of_nat n)) c = Some v
              /\ c <= v <= c + 3060 * Z.of_nat n.
Proof.
  induction n as [|n IH]; intros fuel c Hn Hfuel.
  - exists c. split; [destruct fuel; reflexivity | lia].
  - destruct fuel as [|fuel]; [lia|]. cbn [sweep].
    destruct (Z.leb_spec (16 * (3072 - Z.of_nat (S n))) 0x00BFF0) as [_|Hgt];
      [|change 0x00BFF0 with 49136 in Hgt; lia].
    replace (16 * (3072 - Z.of_nat (S n)) + 16)
      with (16 * (3072 - Z.of_nat n)) by lia.
    destruct (IH fuel (period data (16 * (3072 - Z.of_nat (S n))) c))
      as [v [Hv Hr]]; [lia | lia |].
    exists v. split; [exact Hv|].
    pose proof (period_range data (16 * (3072 - Z.of_nat (S n))) c). lia.
Qed.

(** Slices are determined by the bytes at their offsets. *)
Lemma slice_ext (a b : Z) (d1 d2 : list byte) :
  0 <= a ->
  (forall p, a <= p < b -> index d1 p = index d2 p) ->
  slice a b d1 = slice a b d2.
Proof.
  intros Ha H. unfold slice. apply nth_error_ext. intros n.
  rewrite !nth_error_firstn, !nth_error_skipn.
  destruct (Nat.ltb_spec n (Z.to_nat b - Z.to_nat a)) as [Hn|_];
    [|reflexivity].
  specialize (H (a + Z.of_nat n) ltac:(lia)). unfold index in H.
  replace (Z.to_nat (a + Z.of_nat n)) with (Z.to_nat a + n)%nat in H by lia.
  exact H.
Qed.

Lemma sweep_ext (d1 d2 : list byte) :
  (forall k c, 0 <= k < 3072 ->
     period d1 (16 * k) c = period d2 (16 * k) c) ->
  forall (fuel : nat) (n : nat) (c : Z),
    (n <= 3072)%nat ->
    sweep fuel d1 (16 * (3072 - Z.of_nat n)) c
    = sweep fuel d2 (16 * (3072 - Z.of_nat n)) c.
Proof.
  intros Hp. induction fuel as [|fuel IH]; intros n c Hn.
  - reflexivity.
  - cbn [sweep].
    destruct (16 * (3072 - Z.of_nat n) <=? 0x00BFF0) eqn:Hle;
      [|reflexivity].
    apply Z.leb_le in Hle. change 0x00BFF0 with 49136 in Hle.
    destruct n as [|n]; [lia|].
    rewrite Hp by lia.
    replace (16 * (3072 - Z.of_nat (S n)) + 16)
      with (16 * (3072 - Z.of_nat n)) by lia.
    apply IH. lia.
Qed.

End SweepMore.

(** X1.  The loop of [sim_crc2.py] makes exactly 3072 passes on any file, and
    the sum it prints lies between 0 and [12 * 255 * 3072], so it never
    reaches 2^32: the unmasked Python sum is what a 32-bit accumulator
    would hold. *)
Theorem sweep_passes_and_range (file : list byte) (fuel : nat) :
  ((fuel < 3072)%nat -> SimCrc2.checksum fuel file = None)
  /\ ((3072 <= fuel)%nat ->
      exists v, SimCrc2.checksum fuel file = Some v
                /\ 0 <= v <= 12 * 255 * 3072 /\ v < 2 ^ 32).
Proof.
  unfold SimCrc2.checksum. split.
  - intros Hlt.
    exact (sweep_starved (SimCrc2.extend file) fuel 3072 0 Hlt (le_n _)).
  - intros Hge.
    destruct (sweep_range (SimCrc2.extend file) 3072 fuel 0 (le_n _) Hge)
      as [v [Hv Hr]].
    exists v. split; [exact Hv|].
    change (Z.of_nat 3072) with 3072 in Hr. lia.
Qed.

Lemma sweep_passes_and_range_witness :
  SimCrc2.checksum 3071 [x07; x09] = None
  /\ exists v, SimCrc2.checksum 3072 [x07; x09] = Some v /\ v < 2 ^ 32.
Proof.
  destruct (sweep_passes_and_range [x07; x09] 3071) as [H _].
  destruct (sweep_passes_and_range [x07; x09] 3072) as [_ H'].
  split.
  - apply H. lia.
  - destruct (H' (le_n _)) as [v [Hv [_ Hb]]]. exists v.
    split; [exact Hv | exact Hb].
Defined.

(** X2.  Only the first 12 bytes of every 32-byte period below offset 98284
    reach the sum: two files whose padded contents agree at those
    offsets have the same partial-sample checksum, whatever the other
    bytes are. *)
Theorem sweep_ignores_unsampled (f1 f2 : list byte) (fuel : nat) :
  (forall p, 0 <= p < 98284 -> p mod 32 < 12 ->
     index (SimCrc2.extend f1) p = index (SimCrc2.extend f2) p) ->
  SimCrc2.checksum fuel f1 = SimCrc2.checksum fuel f2.
Proof.
  intros Hagree. unfold SimCrc2.checksum.
  apply (sweep_ext (SimCrc2.extend f1) (SimCrc2.extend f2)) with (n := 3072%nat);
    [|lia].
  intros k c Hk. unfold SimCrc2.period. cbn [fold_left].
  rewrite !add_word_sum.
  rewrite (slice_ext _ _ (SimCrc2.extend f1) (SimCrc2.extend f2)),
          (slice_ext (16 * k * 2 + 1 * 4) _
             (SimCrc2.extend f1) (SimCrc2.extend f2)),
          (slice_ext (16 * k * 2 + 2 * 4) _
             (SimCrc2.extend f1) (SimCrc2.extend f2));
    try lia; try reflexivity;
    intros p Hp; apply Hagree; try lia;
    replace p with ((p - 32 * k) + k * 32) by lia;
    rewrite Z.mod_add by lia; rewrite Z.mod_small; lia.
Qed.

Lemma sweep_ignores_unsampled_witness :
  SimCrc2.checksum 3072 (repeat x00 12 ++ [xff; x10])
  = SimCrc2.checksum 3072 (repeat x00 12 ++ [x01]).
Proof.
  apply sweep_ignores_unsampled.
  intros p Hp Hmod.
  destruct (Z.lt_ge_cases p 32) as [Hlt|Hge].
  - rewrite Z.mod_small in Hmod by lia.
    unfold index. destruct (Z.to_nat p) as [|k] eqn:Hk; [reflexivity|].
    do 11 (destruct k as [|k]; [reflexivity|]). lia.
  - unfold index, SimCrc2.extend.
    rewrite !nth_error_app2 by (cbn [List.length app repeat]; lia).
    cbn [List.length app repeat].
    unfold zeros, len. cbn [List.length app repeat].
    destruct (Nat.lt_ge_cases (Z.to_nat p - 14) (Z.to_nat (98304 - 14)))
      as [H1|H1].
    + rewrite !nth_error_repeat by lia. reflexivity.
    + lia.
Defined.

(** ** sim_crc3.py: the PSRAM loop *)

Section PsramLoop.

Import SimCrc3.

Lemma skipn_cons_nth (s : nat) :
  forall (p : list byte) (b : byte),
    nth_error p s = Some b -> skipn s p = b :: skipn (S s) p.
Proof.
  induction s as [|s IH]; intros [|x p] b H; try discriminate.
  - injection H as ->. reflexivity.
  - cbn [skipn]. apply IH. exact H.
Qed.

(** The indexed loop over [n] positions from [s]: it fails exactly when
    a position lies past the end, and otherwise adds the bytes it
    visits modulo 2^32. *)
Lemma psram_loop_spec (p : list byte) (n : nat) :
  forall (s : nat) (acc : Z),
    0 <= acc < 2 ^ 32 -> (s <= List.length p)%nat ->
    psram_loop p (map Z.of_nat (seq s n)) acc
    = if (s + n <=? List.length p)%nat
      then Some ((acc + sum_bytes (firstn n (skipn s p))) mod 2 ^ 32)
      else None.
Proof.
  induction n as [|n IH]; intros s acc Hacc Hs.
  - cbn [seq map psram_loop firstn].
    destruct (Nat.leb_spec (s + 0) (List.length p)) as [_|H]; [|lia].
    change (sum_bytes []) with 0. rewrite Z.add_0_r, Z.mod_small; auto.
  - cbn [seq map psram_loop]. unfold index. rewrite Nat2Z.id.
    destruct (nth_error p s) as [b|] eqn:Hnth.
    + assert (Hlt : (s < List.length p)%nat)
        by (apply nth_error_Some; congruence).
      change 0xFFFFFFFF with (Z.ones 32). rewrite Z.land_ones by lia.
      rewrite IH by (try apply Z.mod_pos_bound; lia).
      replace (S s + n <=? List.length p)%nat
        with (s + S n <=? List.length p)%nat
        by (apply eq_true_iff_eq; rewrite !Nat.leb_le; lia).
      destruct (s + S n <=? List.length p)%nat; [|reflexivity].
      f_equal.
      rewrite (skipn_cons_nth s p b Hnth). cbn [firstn].
      rewrite sum_bytes_cons.
      rewrite Zplus_mod_idemp_l. f_equal. lia.
    + apply nth_error_None in Hnth.
      destruct (Nat.leb_spec (s + S n) (List.length p)); [lia | reflexivity].
Qed.

Lemma payload_length (data : list byte) :
  List.length (payload data)
  = Nat.min (Z.to_nat 49536) (List.length data - Z.to_nat 128).
Proof.
  unfold payload, slice, payload_len.
  rewrite length_firstn, length_skipn. f_equal.
Qed.

End PsramLoop.

(** The value of the PSRAM loop, by the length of the file. *)
Lemma psram_checksum_value (data : list byte) :
  SimCrc3.psram_checksum data
  = if 49280 <=? len data
    then Some (sum_bytes (slice 128 49280 data) mod 2 ^ 32)
    else None.
Proof.
  unfold SimCrc3.psram_checksum, range.
  rewrite (psram_loop_spec _ _ 0 0) by lia.
  rewrite payload_length. unfold len.
  destruct (Z.leb_spec 49280 (Z.of_nat (List.length data))) as [Hlen|Hlen];
    destruct (Nat.leb_spec (0 + Z.to_nat 49152)
                (Nat.min (Z.to_nat 49536) (List.length data - Z.to_nat 128)));
    try lia; try reflexivity.
  rewrite Z.add_0_l. f_equal. f_equal. f_equal.
  unfold SimCrc3.payload, slice, SimCrc3.payload_len.
  cbn [skipn]. rewrite firstn_firstn. f_equal; lia.
Qed.

(** X3.  The PSRAM loop of [sim_crc3.py] indexes [payload[0 .. 49151]]:
    on a file shorter than [128 + 49152 = 49280] bytes it stops with
    [IndexError], and otherwise it returns the sum of file bytes
    [128 .. 49279] modulo 2^32. *)
Theorem psram_checksum_needs_48k (data : list byte) :
  (len data < 49280 -> SimCrc3.psram_checksum data = None)
  /\ (49280 <= len data ->
      SimCrc3.psram_checksum data
      = Some (sum_bytes (slice 128 49280 data) mod 2 ^ 32)).
Proof.
  rewrite psram_checksum_value. split; intros Hlen.
  - destruct (Z.leb_spec 49280 (len data)); [lia | reflexivity].
  - destruct (Z.leb_spec 49280 (len data)); [reflexivity | lia].
Qed.

Lemma psram_checksum_needs_48k_witness :
  SimCrc3.psram_checksum (repeat x01 (Z.to_nat 49152)) = None.
Proof.
  destruct (psram_checksum_needs_48k (repeat x01 (Z.to_nat 49152)))
    as [H _].
  apply H. unfold len. rewrite repeat_length. lia.
Defined.

(** X4.  When the PSRAM loop returns, the SD checksum of the same file is its
    value plus the remaining payload bytes [49280 .. 49663] of the file,
    modulo 2^32: the two sums of the script differ exactly by the last
    384 bytes loaded. *)
Theorem sd_checksum_from_psram (data : list byte) (v : Z) :
  SimCrc3.psram_checksum data = Some v ->
  SimCrc3.sd_checksum data
  = (v + sum_bytes (slice 49280 49664 data)) mod 2 ^ 32.
Proof.
  intros Hv. rewrite psram_checksum_value in Hv.
  destruct (Z.leb_spec 49280 (len data)) as [Hge|Hlt].
  2: discriminate.
  - injection Hv as <-.
    unfold SimCrc3.sd_checksum. rewrite sum32_mod, payload_window.
    rewrite Zplus_mod_idemp_l, <- sum_bytes_app. f_equal. f_equal.
    unfold slice.
    replace (Z.to_nat 49664 - Z.to_nat 128)%nat
      with ((Z.to_nat 49280 - Z.to_nat 128)
            + (Z.to_nat 49664 - Z.to_nat 49280))%nat by lia.
    rewrite <- (firstn_skipn (Z.to_nat 49280 - Z.to_nat 128)
                  (firstn _ (skipn (Z.to_nat 128) data))).
    rewrite firstn_firstn, skipn_firstn_comm, skipn_skipn.
    f_equal; f_equal; try lia.
Qed.

Lemma sd_checksum_from_psram_witness :
  SimCrc3.sd_checksum (repeat x01 (Z.to_nat 49664)) = 49536.
Proof.
  rewrite (sd_checksum_from_psram (repeat x01 (Z.to_nat 49664)) 49152).
  - replace (slice 49280 49664 (repeat x01 (Z.to_nat 49664)))
      with (repeat x01 (Z.to_nat 384)).
    + rewrite sum_bytes_repeat. reflexivity.
    + rewrite <- (app_nil_r (repeat x01 (Z.to_nat 49664))).
      symmetry.
      apply (slice_uniform x01 _ [] 49280 384); try lia.
      * apply Forall_forall. intros b Hb. symmetry.
        exact (repeat_spec _ _ _ Hb).
      * unfold len. rewrite repeat_length. lia.
  - rewrite psram_checksum_value.
    replace (49280 <=? len (repeat x01 (Z.to_nat 49664))) with true
      by (unfold len; rewrite repeat_length; reflexivity).
    replace (slice 128 49280 (repeat x01 (Z.to_nat 49664)))
      with (repeat x01 (Z.to_nat 49152)).
    + rewrite sum_bytes_repeat. reflexivity.
    + rewrite <- (app_nil_r (repeat x01 (Z.to_nat 49664))).
      symmetry.
      apply (slice_uniform x01 _ [] 128 49152); try lia.
      * apply Forall_forall. intros b Hb. symmetry.
        exact (repeat_spec _ _ _ Hb).
      * unfold len. rewrite repeat_length. lia.
Defined.

(** ** verify_checksum.py: [calculate_sum] at its edges *)

(** X5.  The sum with the header skipped and the sum of the skipped header
    add up to the sum of the whole file, for any header length
    [k >= 0]. *)
Theorem calculate_sum_header_split (data : list byte) (k s : Z) :
  0 <= k ->
  VerifyChecksum.calculate_sum (Some data) k = Some s ->
  VerifyChecksum.calculate_sum (Some data) 0
  = Some (sum_bytes (slice 0 k data) + s).
Proof.
  intros Hk Hs. unfold VerifyChecksum.calculate_sum in *.
  change (0 <? 0) with false. cbv iota. f_equal.
  destruct (Z.ltb_spec 0 k) as [Hpos|Hzero].
  - injection Hs as <-. unfold slice, slice_from.
    change (Z.to_nat 0) with 0%nat. rewrite Nat.sub_0_r. cbn [skipn].
    rewrite <- sum_bytes_app, firstn_skipn. reflexivity.
  - injection Hs as <-. replace k with 0 by lia. reflexivity.
Qed.

Lemma calculate_sum_header_split_witness :
  VerifyChecksum.calculate_sum (Some [x01; x02; x03; x04]) 0 = Some 10.
Proof.
  apply (calculate_sum_header_split [x01; x02; x03; x04] 1 9).
  - lia.
  - reflexivity.
Defined.

(** X6.  [calculate_sum] returns [None] only when the file is missing.  A
    zero or negative [skip_header] skips nothing (it never counts from
    the end of the file), a [skip_header] of the file's length or more
    leaves nothing to add, and every result lies between 0 and
    [255 * len(data)]. *)
Theorem calculate_sum_edges (file : option (list byte)) (skip_header : Z) :
  (VerifyChecksum.calculate_sum file skip_header = None <-> file = None)
  /\ (forall data, file = Some data -> skip_header <= 0 ->
        VerifyChecksum.calculate_sum file skip_header
        = Some (sum_bytes data))
  /\ (forall data, file = Some data -> len data <= skip_header ->
        VerifyChecksum.calculate_sum file skip_header = Some 0)
  /\ (forall data s, file = Some data ->
        VerifyChecksum.calculate_sum file skip_header = Some s ->
        0 <= s <= 255 * len data).
Proof.
  unfold VerifyChecksum.calculate_sum.
  split; [|split; [|split]].
  - destruct file; split; intros H; congruence.
  - intros data -> Hk.
    destruct (Z.ltb_spec 0 skip_header); [lia | reflexivity].
  - intros data -> Hk.
    destruct (Z.ltb_spec 0 skip_header) as [Hpos|Hneg].
    + unfold slice_from, len in *. rewrite skipn_all2 by lia. reflexivity.
    + assert (Hnil : data = []).
      { destruct data; [reflexivity|]. unfold len in Hk. cbn in Hk. lia. }
      subst data. reflexivity.
  - intros data s -> Hs.
    destruct (0 <? skip_header); injection Hs as <-.
    + pose proof (sum_bytes_nonneg (slice_from skip_header data)).
      pose proof (sum_bytes_bound (slice_from skip_header data)) as Hb.
      unfold slice_from, len in *. rewrite length_skipn in Hb. lia.
    + pose proof (sum_bytes_nonneg data).
      pose proof (sum_bytes_bound data). lia.
Qed.

Lemma calculate_sum_edges_witness :
  VerifyChecksum.calculate_sum (Some [x01; x02; x03]) (-2) = Some 6
  /\ VerifyChecksum.calculate_sum (Some [x01; x02; x03]) 3 = Some 0.
Proof.
  destruct (calculate_sum_edges (Some [x01; x02; x03]) (-2))
    as (_ & H1 & _).
  destruct (calculate_sum_edges (Some [x01; x02; x03]) 3)
    as (_ & _ & H2 & _).
  split.
  - apply (H1 [x01; x02; x03] eq_refl). lia.
  - apply (H2 [x01; x02; x03] eq_refl). reflexivity.
Defined.

(** ** sim_offset.py: the table repeats every 16 addresses *)

Section Bursts.

Import SimOffset.

Lemma selectors_periodic (a : Z) :
  word_sel (a + 16) = word_sel a /\ byte_sel (a + 16) = byte_sel a.
Proof.
  rewrite !word_sel_mod, !byte_sel_mod. split.
  - replace (a + 16) with (a + 4 * 4) by lia.
    rewrite Z.div_add by lia.
    replace (a / 4 + 4) with (a / 4 + 1 * 4) by lia.
    apply Z.mod_add. lia.
  - replace (a + 16) with (a + 4 * 4) by lia. apply Z.mod_add. lia.
Qed.

Lemma seq_from (k n : nat) :
  seq k n = map (fun i => (i + k)%nat) (seq 0 n).
Proof.
  induction k as [|k IH].
  - rewrite <- (map_id (seq 0 n)) at 1. apply map_ext. intros i. lia.
  - rewrite <- seq_shift, IH, map_map. apply map_ext. intros i. lia.
Qed.

Lemma mapping_add (n : nat) : mapping (16 + n) = mapping 16 ++ mapping n.
Proof.
  unfold mapping. rewrite seq_app, map_app. f_equal.
  rewrite (seq_from (0 + 16) n), map_map. apply map_ext. intros i.
  replace (Z.of_nat (i + (0 + 16))) with (Z.of_nat i + 16) by lia.
  destruct (selectors_periodic (Z.of_nat i)) as [-> ->]. reflexivity.
Qed.

End Bursts.

(** X7.  The loop of [sim_offset.py] run over [16 * k] addresses prints [k]
    copies of the same table: every (word, byte) pair with word and byte
    in [0 .. 3] exactly once, in lexicographic order.  A burst therefore
    fills all four lanes of all four words, and the word shown says
    nothing about which burst an address is in. *)
Theorem mapping_repeats_burst_table (k : nat) :
  SimOffset.mapping (16 * k)
  = List.concat (repeat (list_prod [0; 1; 2; 3] [0; 1; 2; 3]) k).
Proof.
  induction k as [|k IH]; [reflexivity|].
  replace (16 * S k)%nat with (16 + 16 * k)%nat by lia.
  rewrite mapping_add, IH. reflexivity.
Qed.

(** ** The sector loader against an arbitrary card *)

Section LoaderSafety.

Import Loader Observe.

Variable GAME_SIZE_SECTORS : Z.

Local Abbreviation step := (Loader.step GAME_SIZE_SECTORS).
Local Abbreviation run := (Loader.run GAME_SIZE_SECTORS).
Local Abbreviation committed := (Loader.committed GAME_SIZE_SECTORS).
Local Abbreviation read_requests := (Loader.read_requests GAME_SIZE_SECTORS).
Local Abbreviation next_request := (Observe.next_request GAME_SIZE_SECTORS).
Local Abbreviation in_image := (Observe.in_image GAME_SIZE_SECTORS).

(** Case analysis of one tick: the state, then every test the arm
    makes. *)
Ltac step_cases r i :=
  unfold Loader.step, Observe.next_request, Observe.allowance,
         Observe.counter_ok, Loader.byte_edge, Loader.set_state in *;
  destruct r as [st sa rd b wr a cs lc gl];
  destruct i as [ready status avail avail_d];
  cbn [sd_state sd_address sd_rd byte_in_sector psram_wr_req
       psram_load_addr current_sector load_complete game_loaded
       sd_ready sd_status sd_byte_available sd_byte_available_d] in *;
  destruct st; destruct ready; destruct avail; destruct avail_d;
  destruct (Z.eqb_spec status 6); destruct (Z.ltb_spec b 512);
  destruct (Z.eqb_spec b 511);
  destruct (Z.eqb_spec cs (GAME_SIZE_SECTORS - 1));
  cbn [sd_state sd_address sd_rd byte_in_sector psram_wr_req
       psram_load_addr current_sector load_complete game_loaded
       andb negb] in *.

(** The sector to be requested next moves on exactly when a request is
    issued. *)
Lemma next_request_step (r : regs) (i : inputs) :
  next_request (step r i)
  = match sd_state r with
    | SD_LOAD_START => next_request r + 1
    | _ => next_request r
    end.
Proof. step_cases r i; lia. Qed.

Lemma in_image_step (r : regs) (i : inputs) :
  in_image r -> in_image (step r i).
Proof.
  unfold Observe.in_image. step_cases r i; intros; try exact I; lia.
Qed.

Lemma counter_ok_step (r : regs) (i : inputs) :
  counter_ok r -> counter_ok (step r i).
Proof. step_cases r i; intros; try exact I; lia. Qed.

Lemma read_requests_consecutive (t : list inputs) :
  forall r : regs,
    read_requests r t
    = map (fun j => next_request r + Z.of_nat j)
          (seq 0 (List.length (read_requests r t))).
Proof.
  induction t as [|i t IH]; intros r; [reflexivity|].
  cbn [Loader.read_requests].
  pose proof (next_request_step r i) as Hn.
  specialize (IH (step r i)).
  destruct (sd_state r) eqn:Hst;
    try (rewrite Hn in IH; exact IH).
  cbn [List.length seq map]. f_equal.
  - unfold Observe.next_request. rewrite Hst. lia.
  - rewrite IH at 1. rewrite <- seq_shift, map_map.
    apply map_ext. intros j. rewrite Hn. lia.
Qed.

Lemma read_requests_bounded (t : list inputs) :
  forall r : regs,
    in_image r ->
    next_request r + Z.of_nat (List.length (read_requests r t))
    <= GAME_SIZE_SECTORS.
Proof.
  induction t as [|i t IH]; intros r Hin.
  - cbn [Loader.read_requests List.length].
    unfold Observe.in_image, Observe.next_request in *.
    destruct (sd_state r); lia.
  - cbn [Loader.read_requests].
    pose proof (next_request_step r i) as Hn.
    specialize (IH (step r i) (in_image_step r i Hin)).
    destruct (sd_state r); cbn [List.length]; lia.
Qed.

Lemma complete_count (t : list inputs) :
  forall r : regs,
    sd_state (run r t) = SD_COMPLETE ->
    Z.of_nat (List.length (read_requests r t))
    = GAME_SIZE_SECTORS - next_request r.
Proof.
  induction t as [|i t IH]; intros r Hc.
  - cbn in Hc. cbn [Loader.read_requests List.length].
    unfold Observe.next_request. rewrite Hc. lia.
  - cbn [Loader.run] in Hc. cbn [Loader.read_requests].
    pose proof (next_request_step r i) as Hn.
    specialize (IH (step r i) Hc).
    destruct (sd_state r); cbn [List.length]; lia.
Qed.

Lemma committed_allowance (t : list inputs) :
  forall r : regs,
    counter_ok r ->
    committed r t
    <= allowance r + 512 * Z.of_nat (List.length (read_requests r t)).
Proof.
  induction t as [|i t IH]; intros r Hok.
  - cbn [Loader.committed Loader.read_requests List.length].
    unfold Observe.allowance, Observe.counter_ok in *.
    destruct (sd_state r); lia.
  - cbn [Loader.committed Loader.read_requests].
    specialize (IH (step r i) (counter_ok_step r i Hok)).
    assert (Hlen :
      Z.of_nat (List.length
                  match sd_state r with
                  | SD_LOAD_START =>
                      current_sector r :: read_requests (step r i) t
                  | _ => read_requests (step r i) t
                  end)
      = (match sd_state r with SD_LOAD_START => 1 | _ => 0 end)
        + Z.of_nat (List.length (read_requests (step r i) t)))
      by (destruct (sd_state r); cbn [List.length]; lia).
    rewrite Hlen. clear Hlen. revert IH Hok.
    generalize (committed (step r i) t).
    generalize (Z.of_nat (List.length (read_requests (step r i) t))).
    intros k c.
    step_cases r i; intros; lia.
Qed.

Lemma flags_step (r : regs) (i : inputs) :
  (load_complete r = game_loaded r
   /\ (load_complete r = true -> sd_state r = SD_COMPLETE)) ->
  load_complete (step r i) = game_loaded (step r i)
  /\ (load_complete (step r i) = true -> sd_state (step r i) = SD_COMPLETE).
Proof.
  step_cases r i; intros [H1 H2]; split; intros;
    first [reflexivity | assumption | discriminate
          | (exfalso; specialize (H2 ltac:(assumption)); discriminate)].
Qed.

Lemma flag_sticky_step (r : regs) (i : inputs) :
  load_complete r = true -> load_complete (step r i) = true.
Proof. step_cases r i; intros; first [assumption | reflexivity]. Qed.

Lemma read_strobe_step (r : regs) (i : inputs) :
  ((sd_rd r = true -> sd_state r = SD_LOAD_WAIT)
   /\ (sd_state r = SD_LOAD_WAIT -> sd_address r = current_sector r)) ->
  (sd_rd (step r i) = true -> sd_state (step r i) = SD_LOAD_WAIT)
  /\ (sd_state (step r i) = SD_LOAD_WAIT ->
      sd_address (step r i) = current_sector (step r i)).
Proof.
  step_cases r i; intros [H1 H2]; split; intros;
    first [reflexivity | assumption | discriminate
          | (apply H2; reflexivity)
          | (exfalso; specialize (H1 ltac:(assumption)); discriminate)].
Qed.

Lemma committed_edges (t : list inputs) :
  forall (r : regs) (prev : bool),
    delayed prev t = true ->
    committed r t <= rising_edges prev t.
Proof.
  induction t as [|i t IH]; intros r prev Hd; [reflexivity|].
  cbn [delayed] in Hd. apply andb_true_iff in Hd. destruct Hd as [Hd Hrest].
  apply Bool.eqb_prop in Hd.
  cbn [Loader.committed Observe.rising_edges].
  specialize (IH (step r i) _ Hrest).
  unfold byte_edge. rewrite Hd.
  destruct (sd_state r);
    destruct (sd_ready i && (byte_in_sector r <? 512));
    destruct (sd_byte_available i); destruct prev;
    cbn [andb negb]; lia.
Qed.

Lemma rising_edges_held (t : list inputs) :
  forall prev : bool,
    Forall (fun i => sd_byte_available i = true) t ->
    rising_edges prev t <= (if prev then 0 else 1).
Proof.
  induction t as [|i t IH]; intros prev Hall.
  - cbn. destruct prev; lia.
  - inversion Hall as [|? ? Hi Ht]; subst.
    cbn [Observe.rising_edges]. rewrite Hi.
    specialize (IH true Ht). cbn iota in IH.
    destruct prev; cbn [andb negb]; lia.
Qed.

End LoaderSafety.

(** ** Sessions of the loader, seen on its registers *)

Section LoaderSessions.

Import Loader Observe.

Variable GAME_SIZE_SECTORS : Z.

Local Abbreviation step := (Loader.step GAME_SIZE_SECTORS).
Local Abbreviation run := (Loader.run GAME_SIZE_SECTORS).
Local Abbreviation committed := (Loader.committed GAME_SIZE_SECTORS).
Local Abbreviation read_requests := (Loader.read_requests GAME_SIZE_SECTORS).
Local Abbreviation rd_rises := (Observe.rd_rises GAME_SIZE_SECTORS).
Local Abbreviation to_deliver := (Observe.to_deliver GAME_SIZE_SECTORS).
Local Abbreviation data_uninterrupted :=
  (Observe.data_uninterrupted GAME_SIZE_SECTORS).

Ltac tick_cases r i :=
  unfold Loader.step, Observe.to_deliver, Observe.counter_ok,
         Loader.byte_edge, Loader.set_state in *;
  destruct r as [st sa rd b wr a cs lc gl];
  destruct i as [ready status avail avail_d];
  cbn [sd_state sd_address sd_rd byte_in_sector psram_wr_req
       psram_load_addr current_sector load_complete game_loaded
       sd_ready sd_status sd_byte_available sd_byte_available_d] in *;
  destruct st; destruct rd; destruct ready; destruct avail;
  destruct avail_d;
  destruct (Z.eqb_spec status 6); destruct (Z.ltb_spec b 512);
  destruct (Z.eqb_spec b 511);
  destruct (Z.eqb_spec cs (GAME_SIZE_SECTORS - 1));
  cbn [sd_state sd_address sd_rd byte_in_sector psram_wr_req
       psram_load_addr current_sector load_complete game_loaded
       andb negb app] in *.

(** [sd_rd] stays low outside [SD_LOAD_WAIT]. *)
Lemma rd_low_step (r : regs) (i : inputs) :
  (sd_rd r = true -> sd_state r = SD_LOAD_WAIT) ->
  sd_rd (step r i) = true -> sd_state (step r i) = SD_LOAD_WAIT.
Proof.
  tick_cases r i; intros H1 H2;
    first [reflexivity | discriminate
          | (specialize (H1 eq_refl); discriminate)].
Qed.

(** With [sd_rd] low outside [SD_LOAD_WAIT], the tick spent in
    [SD_LOAD_START] is the tick on which [sd_rd] rises, and
    [sd_address] then names the current sector. *)
Lemma rd_rise_step (r : regs) (i : inputs) :
  (sd_rd r = true -> sd_state r = SD_LOAD_WAIT) ->
  (if negb (sd_rd r) && sd_rd (step r i)
   then [sd_address (step r i)] else [])
  = match sd_state r with
    | SD_LOAD_START => [current_sector r]
    | _ => []
    end.
Proof.
  tick_cases r i; intros H1;
    first [reflexivity | (specialize (H1 eq_refl); discriminate)].
Qed.

Lemma rd_rises_are_requests (t : list inputs) :
  forall r : regs,
    (sd_rd r = true -> sd_state r = SD_LOAD_WAIT) ->
    rd_rises r t = read_requests r t.
Proof.
  induction t as [|i t IH]; intros r Hrd; [reflexivity|].
  cbn [Observe.rd_rises Loader.read_requests]. cbv zeta.
  rewrite (rd_rise_step r i Hrd), (IH (step r i) (rd_low_step r i Hrd)).
  destruct (sd_state r); reflexivity.
Qed.

(** One tick on which the data phase is not closed by the card: what is
    committed comes off what is left to deliver. *)
Lemma to_deliver_step (r : regs) (i : inputs) :
  counter_ok r ->
  (sd_state r = SD_LOAD_DATA -> sd_ready i = false) ->
  (match sd_state r with
   | SD_LOAD_DATA => if byte_edge r i then 1 else 0
   | _ => 0
   end) + to_deliver (step r i) = to_deliver r.
Proof.
  tick_cases r i; intros Hok Hq;
    first [lia | (specialize (Hq eq_refl); discriminate)].
Qed.

Lemma to_deliver_run (t : list inputs) :
  forall r : regs,
    counter_ok r -> data_uninterrupted r t ->
    committed r t + to_deliver (run r t) = to_deliver r.
Proof.
  induction t as [|i t IH]; intros r Hok Hun.
  - cbn [Loader.committed Loader.run]. lia.
  - cbn [Loader.committed Loader.run Observe.data_uninterrupted] in *.
    destruct Hun as [Hq Hrest].
    pose proof (to_deliver_step r i Hok Hq) as Hs.
    pose proof (IH (step r i)
                  (counter_ok_step GAME_SIZE_SECTORS r i Hok) Hrest) as Hi.
    lia.
Qed.

(** A card that never signals ready closes no sector early. *)
Lemma quiet_card_uninterrupted (t : list inputs) :
  forall r : regs,
    Forall (fun i => sd_ready i = false) t -> data_uninterrupted r t.
Proof.
  induction t as [|i t IH]; intros r Hq; [exact I|].
  inversion Hq as [|? ? Hi Ht]; subst.
  cbn [Observe.data_uninterrupted]. split; [intros _; exact Hi|].
  apply IH. exact Ht.
Qed.

Lemma sectors_ticks_quiet (n : nat) :
  Forall (fun i => sd_ready i = false) (sectors_ticks n).
Proof.
  assert (Hb : forall k, Forall (fun i => sd_ready i = false)
                                (byte_ticks k)).
  { induction k as [|k IHk]; [constructor|].
    cbn [byte_ticks]. repeat constructor. exact IHk. }
  induction n as [|n IH]; [constructor|].
  cbn [sectors_ticks]. apply Forall_app. split; [|exact IH].
  unfold sector_ticks.
  constructor; [reflexivity|]. constructor; [reflexivity|]. apply Hb.
Qed.

Lemma session_ticks_uninterrupted (n : nat) :
  data_uninterrupted power_on (session_ticks n).
Proof.
  unfold session_ticks. cbn [Observe.data_uninterrupted].
  split; [discriminate|].
  apply quiet_card_uninterrupted, sectors_ticks_quiet.
Qed.

End LoaderSessions.


(** A card that signals ready as soon as the data phase begins closes
    the sector with nothing committed: the session still completes. *)
Lemma early_close_delivers_nothing :
  let trace :=
    [Loader.card_idle; Loader.busy; Loader.busy;
     Loader.mkInputs true 0 false false; Loader.busy] in
  Loader.sd_state (Loader.run 1 Loader.power_on trace) = Loader.SD_COMPLETE
  /\ Loader.committed 1 Loader.power_on trace = 0.
Proof. split; reflexivity. Qed.


(** X8.  Whatever the card does, a session that starts in [SD_IDLE] on a
    sector of the image requests sectors in ascending order without
    gaps or repeats, beginning with its current sector, and never
    requests a sector past [GAME_SIZE_SECTORS - 1]. *)
Theorem read_requests_ascending (GAME_SIZE_SECTORS : Z) (r : Loader.regs)
  (trace : list Loader.inputs) :
  Loader.sd_state r = Loader.SD_IDLE ->
  Loader.current_sector r <= GAME_SIZE_SECTORS - 1 ->
  exists k : nat,
    Loader.read_requests GAME_SIZE_SECTORS r trace
    = map (fun j => Loader.current_sector r + Z.of_nat j) (seq 0 k)
    /\ Loader.current_sector r + Z.of_nat k <= GAME_SIZE_SECTORS.
Proof.
  intros Hst Hcs.
  exists (List.length (Loader.read_requests GAME_SIZE_SECTORS r trace)).
  pose proof (read_requests_consecutive GAME_SIZE_SECTORS trace r) as Hc.
  pose proof (read_requests_bounded GAME_SIZE_SECTORS trace r) as Hb.
  unfold Observe.next_request, Observe.in_image in Hc, Hb.
  rewrite Hst in Hc, Hb. split; [exact Hc | exact (Hb Hcs)].
Qed.

Lemma read_requests_ascending_witness :
  exists k : nat,
    Loader.read_requests 2 Loader.power_on
      (Loader.card_idle :: Loader.sector_ticks
         ++ [Loader.mkInputs true 3 false false])
    = map (fun j => 0 + Z.of_nat j) (seq 0 k)
    /\ 0 + Z.of_nat k <= 2.
Proof.
  apply (read_requests_ascending 2 Loader.power_on).
  - reflexivity.
  - cbn. lia.
Defined.

(** X9.  Whatever the card does, if a session that starts in [SD_IDLE]
    with [sd_rd] low and its current sector inside the image reaches
    [SD_COMPLETE], then the [sd_rd] register has gone from low to high
    exactly once for each sector from the current one up to
    [GAME_SIZE_SECTORS - 1], in order, with [sd_address] naming that
    sector: completion is never signalled with a sector of the image
    left unrequested. *)
Theorem complete_means_all_requested (GAME_SIZE_SECTORS : Z)
  (r : Loader.regs) (trace : list Loader.inputs) :
  Loader.sd_state r = Loader.SD_IDLE ->
  Loader.sd_rd r = false ->
  Loader.current_sector r <= GAME_SIZE_SECTORS - 1 ->
  Loader.sd_state (Loader.run GAME_SIZE_SECTORS r trace)
  = Loader.SD_COMPLETE ->
  Observe.rd_rises GAME_SIZE_SECTORS r trace
  = map (fun j => Loader.current_sector r + Z.of_nat j)
        (seq 0 (Z.to_nat (GAME_SIZE_SECTORS - Loader.current_sector r))).
Proof.
  intros Hst Hrd Hcs Hdone.
  rewrite (rd_rises_are_requests GAME_SIZE_SECTORS trace r)
    by (intros H; congruence).
  pose proof (read_requests_consecutive GAME_SIZE_SECTORS trace r) as Hc.
  pose proof (complete_count GAME_SIZE_SECTORS trace r Hdone) as Hn.
  unfold Observe.next_request in Hc, Hn. rewrite Hst in Hc, Hn.
  rewrite Hc at 1. f_equal. f_equal. lia.
Qed.

Lemma complete_means_all_requested_witness :
  Observe.rd_rises 1 Loader.power_on (Loader.session_ticks 1) = [0].
Proof.
  rewrite (complete_means_all_requested 1 Loader.power_on
             (Loader.session_ticks 1)).
  - reflexivity.
  - reflexivity.
  - reflexivity.
  - cbn. lia.
  - vm_compute. reflexivity.
Defined.

(** X10.  Whatever the card does, a session that starts in [SD_IDLE] commits
    at most 512 bytes per sector it has requested; with the current
    sector inside the image, the write address therefore never gets
    past its start plus 512 bytes for each sector left to load. *)
Theorem commits_bounded_by_requests (GAME_SIZE_SECTORS : Z)
  (r : Loader.regs) (trace : list Loader.inputs) :
  Loader.sd_state r = Loader.SD_IDLE ->
  Loader.committed GAME_SIZE_SECTORS r trace
  <= 512 * Z.of_nat
             (List.length (Loader.read_requests GAME_SIZE_SECTORS r trace))
  /\ (Loader.current_sector r <= GAME_SIZE_SECTORS - 1 ->
      Loader.psram_load_addr (Loader.run GAME_SIZE_SECTORS r trace)
      <= Loader.psram_load_addr r
         + 512 * (GAME_SIZE_SECTORS - Loader.current_sector r)).
Proof.
  intros Hst.
  pose proof (committed_allowance GAME_SIZE_SECTORS trace r) as Ha.
  pose proof (read_requests_bounded GAME_SIZE_SECTORS trace r) as Hb.
  unfold Observe.allowance, Observe.counter_ok, Observe.next_request,
         Observe.in_image in Ha, Hb.
  rewrite Hst in Ha, Hb. specialize (Ha I).
  split; [lia|].
  intros Hcs. specialize (Hb Hcs).
  rewrite load_addr_counts_commits. lia.
Qed.

Lemma commits_bounded_by_requests_witness :
  Loader.psram_load_addr
    (Loader.run 97 Loader.power_on
       (Loader.card_idle :: Loader.busy :: Loader.busy
          :: Loader.byte_ticks 3))
  <= 0 + 512 * (97 - 0).
Proof.
  destruct (commits_bounded_by_requests 97 Loader.power_on
              (Loader.card_idle :: Loader.busy :: Loader.busy
                 :: Loader.byte_ticks 3)) as [_ H].
  - reflexivity.
  - apply H. cbn. lia.
Defined.

(** X11.  From registers whose flags are both clear, [load_complete] and
    [game_loaded] stay equal to each other, are set only while the
    machine is in [SD_COMPLETE], and once set are never cleared. *)
Theorem flags_track_completion (GAME_SIZE_SECTORS : Z) (r : Loader.regs)
  (trace more : list Loader.inputs) :
  Loader.load_complete r = false ->
  Loader.game_loaded r = false ->
  let r' := Loader.run GAME_SIZE_SECTORS r trace in
  Loader.load_complete r' = Loader.game_loaded r'
  /\ (Loader.load_complete r' = true ->
      Loader.sd_state r' = Loader.SD_COMPLETE
      /\ Loader.load_complete (Loader.run GAME_SIZE_SECTORS r' more) = true).
Proof.
  intros Hl Hg. cbv zeta.
  assert (Hinv : forall t r0,
            (Loader.load_complete r0 = Loader.game_loaded r0
             /\ (Loader.load_complete r0 = true ->
                 Loader.sd_state r0 = Loader.SD_COMPLETE)) ->
            Loader.load_complete (Loader.run GAME_SIZE_SECTORS r0 t)
            = Loader.game_loaded (Loader.run GAME_SIZE_SECTORS r0 t)
            /\ (Loader.load_complete (Loader.run GAME_SIZE_SECTORS r0 t)
                = true ->
                Loader.sd_state (Loader.run GAME_SIZE_SECTORS r0 t)
                = Loader.SD_COMPLETE)).
  { induction t as [|i t IH]; intros r0 H0; [exact H0|].
    cbn [Loader.run]. apply IH, flags_step, H0. }
  assert (Hsticky : forall t r0,
            Loader.load_complete r0 = true ->
            Loader.load_complete (Loader.run GAME_SIZE_SECTORS r0 t) = true).
  { induction t as [|i t IH]; intros r0 H0; [exact H0|].
    cbn [Loader.run]. apply IH, flag_sticky_step, H0. }
  destruct (Hinv trace r) as [H1 H2].
  { split; [congruence | intros H; congruence]. }
  split; [exact H1|].
  intros Hset. split; [exact (H2 Hset) | exact (Hsticky more _ Hset)].
Qed.

Lemma flags_track_completion_witness :
  Loader.load_complete
    (Loader.run 1 Loader.power_on
       (Loader.card_idle :: Loader.busy :: Loader.busy
          :: Loader.byte_ticks 2))
  = Loader.game_loaded
      (Loader.run 1 Loader.power_on
         (Loader.card_idle :: Loader.busy :: Loader.busy
            :: Loader.byte_ticks 2)).
Proof.
  destruct (flags_track_completion 1 Loader.power_on
              (Loader.card_idle :: Loader.busy :: Loader.busy
                 :: Loader.byte_ticks 2) []) as [H _].
  - reflexivity.
  - reflexivity.
  - exact H.
Defined.

(** X12.  From registers with [sd_rd] low, the read strobe is high only while
    the machine waits in [SD_LOAD_WAIT], and the address it presents
    there is the current sector: a read is never left asserted during
    the data phase and never names another sector. *)
Theorem read_strobe_only_while_waiting (GAME_SIZE_SECTORS : Z)
  (r : Loader.regs) (trace : list Loader.inputs) :
  Loader.sd_rd r = false ->
  Loader.sd_state r <> Loader.SD_LOAD_WAIT ->
  let r' := Loader.run GAME_SIZE_SECTORS r trace in
  (Loader.sd_rd r' = true -> Loader.sd_state r' = Loader.SD_LOAD_WAIT)
  /\ (Loader.sd_state r' = Loader.SD_LOAD_WAIT ->
      Loader.sd_address r' = Loader.current_sector r').
Proof.
  intros Hrd Hst. cbv zeta.
  assert (Hinv : forall t r0,
            ((Loader.sd_rd r0 = true ->
              Loader.sd_state r0 = Loader.SD_LOAD_WAIT)
             /\ (Loader.sd_state r0 = Loader.SD_LOAD_WAIT ->
                 Loader.sd_address r0 = Loader.current_sector r0)) ->
            (Loader.sd_rd (Loader.run GAME_SIZE_SECTORS r0 t) = true ->
             Loader.sd_state (Loader.run GAME_SIZE_SECTORS r0 t)
             = Loader.SD_LOAD_WAIT)
            /\ (Loader.sd_state (Loader.run GAME_SIZE_SECTORS r0 t)
                = Loader.SD_LOAD_WAIT ->
                Loader.sd_address (Loader.run GAME_SIZE_SECTORS r0 t)
                = Loader.current_sector
                    (Loader.run GAME_SIZE_SECTORS r0 t))).
  { induction t as [|i t IH]; intros r0 H0; [exact H0|].
    cbn [Loader.run]. apply IH, read_strobe_step, H0. }
  apply Hinv. split; intros H; congruence.
Qed.

Lemma read_strobe_only_while_waiting_witness :
  Loader.sd_address
    (Loader.run 97 Loader.power_on [Loader.card_idle; Loader.busy])
  = Loader.current_sector
      (Loader.run 97 Loader.power_on [Loader.card_idle; Loader.busy]).
Proof.
  destruct (read_strobe_only_while_waiting 97 Loader.power_on
              [Loader.card_idle; Loader.busy]) as [_ H].
  - reflexivity.
  - discriminate.
  - apply H. reflexivity.
Defined.

(** X13.  Byte intake is edge-triggered: when [sd_byte_available_d] is the
    previous tick's [sd_byte_available], the loader commits at most one
    byte per rising edge of the strobe, so a strobe that is held high
    over a whole trace is taken at most once. *)
Theorem intake_is_edge_triggered (GAME_SIZE_SECTORS : Z) (r : Loader.regs)
  (prev : bool) (trace : list Loader.inputs) :
  Loader.delayed prev trace = true ->
  Loader.committed GAME_SIZE_SECTORS r trace
  <= Observe.rising_edges prev trace
  /\ (Forall (fun i => Loader.sd_byte_available i = true) trace ->
      Loader.committed GAME_SIZE_SECTORS r trace <= 1).
Proof.
  intros Hd.
  pose proof (committed_edges GAME_SIZE_SECTORS trace r prev Hd) as He.
  split; [exact He|].
  intros Hheld. pose proof (rising_edges_held trace prev Hheld).
  destruct prev; lia.
Qed.

Lemma intake_is_edge_triggered_witness :
  Loader.committed 97
    (Loader.mkRegs Loader.SD_LOAD_DATA 0 false 0 false 0 0 false false)
    [Loader.mkInputs false 0 true false;
     Loader.mkInputs false 0 true true;
     Loader.mkInputs false 0 true true]
  <= 1.
Proof.
  destruct (intake_is_edge_triggered 97
              (Loader.mkRegs Loader.SD_LOAD_DATA 0 false 0 false 0 0
                             false false)
              false
              [Loader.mkInputs false 0 true false;
               Loader.mkInputs false 0 true true;
               Loader.mkInputs false 0 true true]) as [_ H].
  - reflexivity.
  - apply H. repeat constructor.
Defined.

(** ** The provisioner: what reaches the device *)

Section ProvisionerMore.

Import Provisioner Observe.

Lemma written_app (a b : list dev_op) :
  written (a ++ b) = written a ++ written b.
Proof.
  induction a as [|op a IH]; [reflexivity|].
  destruct op; cbn [app written]; rewrite IH;
    try reflexivity. apply app_assoc.
Qed.

Lemma seeks_app (a b : list dev_op) : seeks (a ++ b) = seeks a ++ seeks b.
Proof.
  induction a as [|op a IH]; [reflexivity|].
  destruct op; cbn [app seeks]; rewrite IH; reflexivity.
Qed.

(** The calls made are an initial part of the calls planned; all of them
    when none raises, and only then. *)
Lemma attempt_prefix (dev : device) (ops : list dev_op) :
  exists rest, ops = fst (attempt dev ops) ++ rest.
Proof.
  induction ops as [|op ops [rest IH]]; [exists []; reflexivity|].
  cbn [attempt]. destruct (dev op).
  - exists ops. reflexivity.
  - destruct (attempt dev ops) as [made r]. cbn [fst] in *.
    exists rest. cbn [app]. f_equal. exact IH.
Qed.

Lemma attempt_clean (dev : device) (ops : list dev_op) :
  snd (attempt dev ops) = None <-> Forall (fun op => dev op = None) ops.
Proof.
  induction ops as [|op ops IH]; cbn [attempt].
  - split; [constructor | reflexivity].
  - destruct (dev op) as [e|] eqn:Hop.
    + cbn [snd]. split; [discriminate|].
      intros H. inversion H; congruence.
    + destruct (attempt dev ops) as [made r]. cbn [snd] in *.
      rewrite IH. split.
      * intros H. constructor; assumption.
      * intros H. inversion H; assumption.
Qed.

Lemma attempt_all (dev : device) (ops : list dev_op) :
  snd (attempt dev ops) = None -> fst (attempt dev ops) = ops.
Proof.
  induction ops as [|op ops IH]; cbn [attempt]; [reflexivity|].
  destruct (dev op); [discriminate|].
  destruct (attempt dev ops) as [made r]. cbn [fst snd] in *.
  intros H. f_equal. exact (IH H).
Qed.

(** The image and its padding fill whole blocks. *)
Lemma padded_length (game_data : list byte) (game_number : Z) :
  len (written (write_ops game_data game_number))
  = blocks_needed (len game_data) * BLOCK_SIZE
  /\ written (write_ops game_data game_number)
     = game_data
       ++ zeros (blocks_needed (len game_data) * BLOCK_SIZE - len game_data).
Proof.
  unfold write_ops, blocks_needed, BLOCK_SIZE.
  pose proof (Z.div_mod (len game_data) 512 ltac:(lia)) as Hd.
  pose proof (Z.mod_pos_bound (len game_data) 512 ltac:(lia)) as Hm.
  pose proof (Z.div_mod (len game_data + 512 - 1) 512 ltac:(lia)) as Hd'.
  pose proof (Z.mod_pos_bound (len game_data + 512 - 1) 512 ltac:(lia))
    as Hm'.
  assert (Hlen : 0 <= len game_data) by (unfold len; lia).
  destruct (Z.gtb_spec (len game_data mod 512) 0) as [Hpos|Hzero];
    cbn [app written].
  - assert (Hpad : (len game_data + 512 - 1) / 512 * 512 - len game_data
                   = 512 - len game_data mod 512) by lia.
    rewrite Hpad, app_nil_r. split; [|reflexivity].
    unfold len, zeros in *. rewrite length_app, repeat_length. lia.
  - assert (Hpad : (len game_data + 512 - 1) / 512 * 512 - len game_data = 0)
      by lia.
    rewrite Hpad. cbn [zeros Z.to_nat repeat]. rewrite app_nil_r.
    split; [lia | reflexivity].
Qed.

Lemma write_ops_seeks (game_data : list byte) (game_number : Z) :
  seeks (write_ops game_data game_number) = [offset game_number].
Proof.
  unfold write_ops.
  destruct (len game_data mod BLOCK_SIZE >? 0); reflexivity.
Qed.

(** What [write_game_to_blocks] does to the device is an initial part
    of [write_ops], or nothing. *)
Lemma device_calls_prefix (dev : device) (game_data : list byte)
  (game_number : Z) :
  exists rest,
    (device_calls (write_game_to_blocks dev game_data game_number) = []
     \/ blocks_needed (len game_data) <= BLOCKS_PER_GAME)
    /\ (device_calls (write_game_to_blocks dev game_data game_number) = []
        \/ write_ops game_data game_number
           = device_calls (write_game_to_blocks dev game_data game_number)
             ++ rest).
Proof.
  unfold write_game_to_blocks.
  destruct (Z.gtb_spec (blocks_needed (len game_data)) BLOCKS_PER_GAME).
  - exists []. split; left; reflexivity.
  - destruct (attempt_prefix dev (write_ops game_data game_number))
      as [rest Hrest].
    exists rest.
    destruct (attempt dev (write_ops game_data game_number))
      as [made [[|]|]]; cbn [fst device_calls] in *;
      (split; right; [lia | exact Hrest]).
Qed.

(** Every seek of [write_game_to_blocks] goes to the start of the
    slot. *)
Lemma write_stays_in_slot_seeks (dev : device) (game_data : list byte)
  (game_number : Z) :
  Forall (fun off => off = offset game_number)
         (seeks (device_calls
                   (write_game_to_blocks dev game_data game_number))).
Proof.
  destruct (device_calls_prefix dev game_data game_number)
    as [rest [_ [Hnil|Hpre]]].
  - rewrite Hnil. constructor.
  - pose proof (write_ops_seeks game_data game_number) as Hs.
    rewrite Hpre, seeks_app in Hs.
    destruct (seeks (device_calls _)) as [|o l]; [constructor|].
    cbn [app] in Hs. injection Hs as -> Hl.
    destruct l; [|discriminate]. repeat constructor.
Qed.

End ProvisionerMore.

(** X14.  Whatever the device does, [write_game_to_blocks] seeks only to the
    first byte of its own slot and hands [sd.write] at most
    [BLOCKS_PER_GAME * BLOCK_SIZE] bytes from there, so what it writes
    ends at or before the first byte of the next slot. *)
Theorem write_stays_in_slot (dev : Provisioner.device)
  (game_data : list byte) (game_number : Z) :
  let calls :=
    Provisioner.device_calls
      (Provisioner.write_game_to_blocks dev game_data game_number) in
  Forall (fun off => off = Provisioner.offset game_number)
         (Observe.seeks calls)
  /\ len (Observe.written calls)
     <= Provisioner.BLOCKS_PER_GAME * Provisioner.BLOCK_SIZE
  /\ Provisioner.offset game_number + len (Observe.written calls)
     <= Provisioner.offset (game_number + 1).
Proof.
  cbv zeta.
  destruct (device_calls_prefix dev game_data game_number)
    as [rest [Hfit Hpre]].
  assert (Hoff : Provisioner.offset (game_number + 1)
                 = Provisioner.offset game_number + 51200)
    by (unfold Provisioner.offset, Provisioner.start_block,
               Provisioner.BLOCKS_PER_GAME, Provisioner.BLOCK_SIZE; lia).
  destruct Hpre as [Hnil|Hpre].
  - rewrite Hnil. cbn. split; [constructor|]. rewrite Hoff.
    unfold Provisioner.BLOCKS_PER_GAME, Provisioner.BLOCK_SIZE. lia.
  - destruct Hfit as [Hnil|Hfit].
    { rewrite Hnil. cbn. split; [constructor|]. rewrite Hoff.
      unfold Provisioner.BLOCKS_PER_GAME, Provisioner.BLOCK_SIZE. lia. }
    pose proof (write_ops_seeks game_data game_number) as Hs.
    destruct (padded_length game_data game_number) as [Hl _].
    rewrite Hpre, seeks_app in Hs. rewrite Hpre, written_app in Hl.
    unfold len in Hl. rewrite length_app in Hl.
    split.
    + destruct (Observe.seeks (Provisioner.device_calls _)) as [|o l];
        [constructor|].
      cbn [app] in Hs. injection Hs as -> Hnil.
      destruct l; [|discriminate]. repeat constructor.
    + unfold len, Provisioner.BLOCKS_PER_GAME, Provisioner.BLOCK_SIZE in *.
      rewrite Hoff. lia.
Qed.

(** X15.  [write_game_to_blocks] returns [True] only when the image fits
    its slot and none of the device calls it plans raises; if the image
    does not fit, or one of those calls raises, it returns [False].
    Whenever it returns [True] it has made every planned call, and what
    it wrote is the image followed by zeros up to the next multiple of
    [BLOCK_SIZE]. *)
Theorem write_success_means_whole_image (dev : Provisioner.device)
  (game_data : list byte) (game_number : Z) :
  let o := Provisioner.write_game_to_blocks dev game_data game_number in
  (Provisioner.returned o = true ->
   Provisioner.blocks_needed (len game_data)
   <= Provisioner.BLOCKS_PER_GAME
   /\ Forall (fun op => dev op = None)
             (Provisioner.write_ops game_data game_number)
   /\ Provisioner.device_calls o
      = Provisioner.write_ops game_data game_number
   /\ Observe.written (Provisioner.device_calls o)
      = game_data
        ++ zeros (Provisioner.blocks_needed (len game_data)
                  * Provisioner.BLOCK_SIZE - len game_data)
   /\ len (Observe.written (Provisioner.device_calls o))
      mod Provisioner.BLOCK_SIZE = 0)
  /\ (Provisioner.blocks_needed (len game_data)
      > Provisioner.BLOCKS_PER_GAME
      \/ Exists (fun op => dev op <> None)
                (Provisioner.write_ops game_data game_number) ->
      Provisioner.returned o = false).
Proof.
  cbv zeta. unfold Provisioner.write_game_to_blocks.
  pose proof (attempt_clean dev
                (Provisioner.write_ops game_data game_number)) as Hclean.
  pose proof (attempt_all dev
                (Provisioner.write_ops game_data game_number)) as Hall.
  destruct (padded_length game_data game_number) as [Hlen Hpad].
  destruct (Z.gtb_spec (Provisioner.blocks_needed (len game_data))
                       Provisioner.BLOCKS_PER_GAME) as [Hgt|Hle].
  - cbn. split; [discriminate | reflexivity].
  - destruct (Provisioner.attempt dev
                (Provisioner.write_ops game_data game_number))
      as [made [[|]|]]; cbn [fst snd Provisioner.returned
                             Provisioner.device_calls] in *.
    + split; [discriminate | reflexivity].
    + split; [discriminate | reflexivity].
    + rewrite (Hall eq_refl). split.
      * intros _. split; [exact Hle|].
        split; [apply Hclean; reflexivity|].
        split; [reflexivity|]. split; [exact Hpad|].
        rewrite Hlen. apply Z.mod_mul. unfold Provisioner.BLOCK_SIZE. lia.
      * intros [Hbig|Hraise]; [lia|]. exfalso.
        apply Exists_exists in Hraise. destruct Hraise as [op [Hin Hop]].
        pose proof (proj1 Hclean eq_refl) as Hnone.
        rewrite Forall_forall in Hnone. exact (Hop (Hnone op Hin)).
Qed.

Lemma write_success_means_whole_image_witness :
  Observe.written
    (Provisioner.device_calls
       (Provisioner.write_game_to_blocks (fun _ => None) [x01; x02] 3))
  = [x01; x02] ++ zeros (1 * 512 - 2)
  /\ Provisioner.returned
       (Provisioner.write_game_to_blocks
          (fun op => match op with
                     | Provisioner.Flush => Some Provisioner.OtherError
                     | _ => None
                     end)
          [x01; x02] 3)
     = false.
Proof.
  destruct (write_success_means_whole_image (fun _ => None) [x01; x02] 3)
    as [H _].
  destruct (write_success_means_whole_image
              (fun op => match op with
                         | Provisioner.Flush => Some Provisioner.OtherError
                         | _ => None
                         end)
              [x01; x02] 3) as [_ H'].
  split.
  - destruct H as (_ & _ & _ & Hw & _); [reflexivity | exact Hw].
  - apply H'. right. apply Exists_exists.
    exists Provisioner.Flush. split; [|discriminate].
    cbn. tauto.
Defined.

(** ** The entry point: when and where it writes *)

Section MainMore.

Import Provisioner Observe.

(** The loop over the game files from index [i]: it only adds calls,
    every seek goes to the slot of a file that exists, at the index the
    file has on the command line, and the count grows by at most one
    per existing file. *)
Lemma write_each_spec (e : env) (game_files : list string) :
  forall (i success_count : Z) (calls : list dev_op),
  exists new : list dev_op,
    snd (write_each e game_files i success_count calls) = calls ++ new
    /\ Forall (fun off =>
                 exists j : nat,
                   (j < List.length game_files)%nat
                   /\ off = offset (i + Z.of_nat j)
                   /\ path_exists e (nth j game_files EmptyString) = true)
              (seeks new)
    /\ success_count
       <= fst (write_each e game_files i success_count calls)
       <= success_count
          + Z.of_nat (List.length (filter (path_exists e) game_files)).
Proof.
  induction game_files as [|game_file rest IH];
    intros i success_count calls.
  - exists []. cbn. rewrite app_nil_r. repeat split; try constructor; lia.
  - cbn [write_each filter].
    destruct (path_exists e game_file) eqn:Hex; cbn [negb].
    + set (o := write_game_to_blocks (dev e) (read_file e game_file) i).
      destruct (IH (i + 1)
                  (if returned o then success_count + 1 else success_count)
                  (calls ++ device_calls o)) as [new (Hc & Hs & Hn)].
      exists (device_calls o ++ new).
      rewrite Hc, <- app_assoc. split; [reflexivity|]. split.
      * rewrite seeks_app. apply Forall_app. split.
        -- pose proof (write_stays_in_slot_seeks (dev e)
                         (read_file e game_file) i) as Hseek.
           eapply Forall_impl; [|exact Hseek].
           intros off ->. exists 0%nat. cbn [List.length nth].
           repeat split; [lia | f_equal; lia | exact Hex].
        -- eapply Forall_impl; [|exact Hs].
           intros off [j (Hj & Hoff & Hp)]. exists (S j).
           cbn [List.length nth]. repeat split; [lia | | exact Hp].
           rewrite Hoff. f_equal. lia.
      * cbn [List.length]. destruct (returned o); lia.
    + destruct (IH (i + 1) success_count calls) as [new (Hc & Hs & Hn)].
      exists new. split; [exact Hc|]. split; [|lia].
      eapply Forall_impl; [|exact Hs].
      intros off [j (Hj & Hoff & Hp)]. exists (S j).
      cbn [List.length nth]. repeat split; [lia | | exact Hp].
      rewrite Hoff. f_equal. lia.
Qed.

End MainMore.

(** X17.  [main] touches the device only after every check has passed: at
    least one game file was named, the device path exists, it contains
    neither [/dev/disk0] nor [/dev/disk1], and the answer typed at the
    prompt is exactly [YES]. *)
Theorem main_writes_only_when_confirmed (e : Provisioner.env)
  (argv : list string) :
  snd (Provisioner.main e argv) <> [] ->
  3 <= Z.of_nat (List.length argv)
  /\ Provisioner.path_exists e (nth 1 argv EmptyString) = true
  /\ Provisioner.contains "/dev/disk0" (nth 1 argv EmptyString) = false
  /\ Provisioner.contains "/dev/disk1" (nth 1 argv EmptyString) = false
  /\ Provisioner.response e = "YES"%string.
Proof.
  unfold Provisioner.main.
  destruct (Z.ltb_spec (Z.of_nat (List.length argv)) 3) as [|Hlen];
    [intros Hne; contradiction Hne; reflexivity|].
  destruct (Provisioner.path_exists e (nth 1 argv EmptyString)) eqn:Hex;
    cbn [negb]; [|intros Hne; contradiction Hne; reflexivity].
  destruct (Provisioner.contains "/dev/disk0" (nth 1 argv EmptyString))
    eqn:H0; cbn [orb]; [intros Hne; contradiction Hne; reflexivity|].
  destruct (Provisioner.contains "/dev/disk1" (nth 1 argv EmptyString))
    eqn:H1; [intros Hne; contradiction Hne; reflexivity|].
  destruct (String.eqb_spec (Provisioner.response e) "YES") as [Hyes|Hno];
    cbn [negb]; [|intros Hne; contradiction Hne; reflexivity].
  intros _. repeat split; assumption.
Qed.

Lemma main_writes_only_when_confirmed_witness :
  Provisioner.response
    (Provisioner.mkEnv (fun _ => true) (fun _ => [x01]) "YES"
                       (fun _ => None))
  = "YES"%string.
Proof.
  destruct (main_writes_only_when_confirmed
              (Provisioner.mkEnv (fun _ => true) (fun _ => [x01]) "YES"
                                 (fun _ => None))
              ["prog"; "/dev/disk4"; "a.a78"]%string)
    as (_ & _ & _ & _ & H).
  - vm_compute. discriminate.
  - exact H.
Defined.

(** X18.  Every seek [main] makes goes to the start of slot [j], where [j] is
    the position on the command line of a game file that exists: a
    missing file is skipped without shifting the files after it into
    its slot.  The number of successes it reports is between 0 and the
    number of game files that exist. *)
Theorem main_seeks_to_slots_of_existing_files (e : Provisioner.env)
  (argv : list string) :
  let game_files := skipn 2 argv in
  Forall (fun off =>
            exists j : nat,
              (j < List.length game_files)%nat
              /\ off = Provisioner.offset (Z.of_nat j)
              /\ Provisioner.path_exists e (nth j game_files EmptyString)
                 = true)
         (Observe.seeks (snd (Provisioner.main e argv)))
  /\ (forall n, fst (Provisioner.main e argv) = Provisioner.Finished n ->
        0 <= n
        <= Z.of_nat (List.length
                       (filter (Provisioner.path_exists e) game_files))).
Proof.
  cbv zeta. unfold Provisioner.main.
  destruct (Z.of_nat (List.length argv) <? 3);
    [split; [constructor | discriminate]|].
  destruct (negb (Provisioner.path_exists e (nth 1 argv EmptyString)));
    [split; [constructor | discriminate]|].
  destruct (Provisioner.contains "/dev/disk0" (nth 1 argv EmptyString)
            || Provisioner.contains "/dev/disk1" (nth 1 argv EmptyString));
    [split; [constructor | discriminate]|].
  destruct (negb (Provisioner.response e =? "YES")%string);
    [split; [constructor | discriminate]|].
  destruct (write_each_spec e (skipn 2 argv) 0 0 [])
    as [new (Hc & Hs & Hn)].
  destruct (Provisioner.write_each e (skipn 2 argv) 0 0 []) as [n calls].
  cbn [fst snd app] in *. subst calls. split.
  - eapply Forall_impl; [|exact Hs].
    intros off [j (Hj & Hoff & Hp)]. exists j. repeat split; assumption.
  - intros n' Hn'. injection Hn' as <-. lia.
Qed.

(** ** sim_checksum.py: the chunked sweep *)

Section Chunks.

Lemma slice_split (a b c : Z) (d : list byte) :
  0 <= a <= b -> b <= c ->
  slice a c d = slice a b d ++ slice b c d.
Proof.
  intros Hab Hbc. unfold slice.
  replace (Z.to_nat c - Z.to_nat a)%nat
    with ((Z.to_nat b - Z.to_nat a) + (Z.to_nat c - Z.to_nat b))%nat by lia.
  rewrite <- (firstn_skipn (Z.to_nat b - Z.to_nat a)
                (firstn _ (skipn (Z.to_nat a) d))).
  rewrite firstn_firstn, skipn_firstn_comm, skipn_skipn.
  f_equal; f_equal; try lia. f_equal. lia.
Qed.

Lemma slice_past_end (a b : Z) (d : list byte) :
  len d <= a -> slice a b d = [].
Proof.
  intros Ha. unfold slice, len in *. rewrite skipn_all2 by lia.
  apply firstn_nil.
Qed.

Lemma slice_all (b : Z) (d : list byte) : len d <= b -> slice 0 b d = d.
Proof.
  intros Hb. unfold slice, len in *. cbn [Z.to_nat skipn].
  apply firstn_all2. lia.
Qed.

Lemma slice_skipn (s a b : Z) (d : list byte) :
  0 <= s -> 0 <= a ->
  slice a b (slice_from s d) = slice (s + a) (s + b) d.
Proof.
  intros Hs Ha. unfold slice, slice_from. rewrite skipn_skipn.
  f_equal; [lia | f_equal; lia].
Qed.

(** The sweep from chunk [3072 - n] on adds the bytes from that chunk to
    offset 49152. *)
Lemma psram_sweep_sum (data : list byte) (n : nat) :
  forall (fuel : nat) (acc : Z),
    (n <= 3072)%nat -> (n <= fuel)%nat ->
    SimChecksum.psram_sweep fuel data
      (0x4000 + 16 * (3072 - Z.of_nat n)) acc
    = Some (acc + sum_bytes (slice (16 * (3072 - Z.of_nat n)) 49152 data)).
Proof.
  induction n as [|n IH]; intros fuel acc Hn Hfuel.
  - replace (16 * (3072 - Z.of_nat 0)) with 49152 by lia.
    destruct fuel; cbn [SimChecksum.psram_sweep];
      change (0x4000 + 49152 <? 0x10000) with false; cbv iota;
      unfold slice; rewrite Nat.sub_diag; cbn [firstn];
      change (sum_bytes []) with 0; f_equal; lia.
  - destruct fuel as [|fuel]; [lia|].
    cbn [SimChecksum.psram_sweep].
    destruct (Z.ltb_spec (0x4000 + 16 * (3072 - Z.of_nat (S n))) 0x10000)
      as [_|Hge]; [|change 0x4000 with 16384 in Hge;
                     change 0x10000 with 65536 in Hge; lia].
    replace (0x4000 + 16 * (3072 - Z.of_nat (S n)) - 0x4000)
      with (16 * (3072 - Z.of_nat (S n))) by lia.
    replace (0x4000 + 16 * (3072 - Z.of_nat (S n)) + 16)
      with (0x4000 + 16 * (3072 - Z.of_nat n)) by lia.
    rewrite IH by lia. f_equal.
    rewrite (slice_split (16 * (3072 - Z.of_nat (S n)))
               (16 * (3072 - Z.of_nat (S n)) + 16) 49152) by lia.
    rewrite sum_bytes_app.
    replace (16 * (3072 - Z.of_nat (S n)) + 16)
      with (16 * (3072 - Z.of_nat n)) by lia.
    destruct (Z.ltb_spec (16 * (3072 - Z.of_nat (S n))) (len data))
      as [_|Hpast]; [lia|].
    rewrite (slice_past_end (16 * (3072 - Z.of_nat (S n)))) by lia.
    change (sum_bytes []) with 0. lia.
Qed.

End Chunks.

(** X19.  The 16-byte chunk sweep of [sim_checksum.py] from [0x4000] to
    [0x10000] needs 3072 passes and adds exactly the first 49152 bytes
    of the file, once each: on a file of at most 48 KB the PSRAM sum is
    the plain sum of the file, the "SD Total" the script prints
    first. *)
Theorem chunk_sweep_is_plain_sum (data : list byte) (fuel : nat) :
  (3072 <= fuel)%nat ->
  SimChecksum.psram_sum fuel data = Some (sum_bytes (slice 0 49152 data))
  /\ (len data <= 49152 ->
      SimChecksum.psram_sum fuel data = Some (sum_bytes data)).
Proof.
  intros Hfuel. unfold SimChecksum.psram_sum.
  pose proof (psram_sweep_sum data 3072 fuel 0 (le_n _) Hfuel) as H.
  change (0x4000 + 16 * (3072 - Z.of_nat 3072)) with 0x4000 in H.
  change (16 * (3072 - Z.of_nat 3072)) with 0 in H.
  rewrite H. split; [reflexivity|].
  intros Hlen. rewrite slice_all by lia. reflexivity.
Qed.

Lemma chunk_sweep_is_plain_sum_witness :
  SimChecksum.psram_sum 3072 [x01; x02; x03] = Some 6.
Proof.
  destruct (chunk_sweep_is_plain_sum [x01; x02; x03] 3072 (le_n _))
    as [_ H].
  rewrite H; [reflexivity | cbn; lia].
Defined.

(** ** rom_gen.py and dump_vectors.py: what the hex text says *)

Section HexText.

Lemma digit_value_digit (upper : bool) (n : Z) :
  0 <= n < 16 -> Hex.digit_value (Hex.digit upper n) = Some n.
Proof.
  intros Hn. rewrite <- (Z2Nat.id n) by lia.
  assert (Hk : (Z.to_nat n < 16)%nat) by lia.
  generalize dependent (Z.to_nat n). clear n Hn. intros k Hk.
  destruct upper;
    do 16 (destruct k as [|k]; [reflexivity|]); lia.
Qed.

Lemma byte_val_inj (a b : byte) : byte_val a = byte_val b -> a = b.
Proof.
  unfold byte_val. intros H. apply N2Z.inj in H.
  pose proof (Byte.of_to_N a) as Ha. pose proof (Byte.of_to_N b) as Hb.
  rewrite H in Ha. congruence.
Qed.

Lemma read_hex_file (data : list byte) :
  RomGen.read_hex (RomGen.hex_file data) = Some (map byte_val data).
Proof.
  induction data as [|b data IH]; [reflexivity|].
  cbn [RomGen.hex_file Hex.hex2 String.append RomGen.read_hex map].
  pose proof (byte_val_range b) as Hb.
  rewrite !digit_value_digit
    by (try apply Z.mod_pos_bound; try split;
        try apply Z.div_pos; try apply Z.div_lt_upper_bound; lia).
  change (Ascii.eqb "010" "010") with true. cbv iota.
  rewrite IH. cbn [option_map]. f_equal. f_equal.
  pose proof (Z.div_mod (byte_val b) 16 ltac:(lia)). lia.
Qed.

End HexText.

(** X25.  The text [rom_gen.py] writes holds three characters per ROM byte,
    reads back as the values of the bytes in order, and so determines
    the ROM: two different images never give the same [game.hex]. *)
Theorem rom_gen_round_trip (data : list byte) :
  RomGen.read_hex (RomGen.hex_file data) = Some (map byte_val data)
  /\ Z.of_nat (String.length (RomGen.hex_file data)) = 3 * len data
  /\ (forall other : list byte,
        RomGen.hex_file other = RomGen.hex_file data -> other = data).
Proof.
  split; [apply read_hex_file | split].
  - unfold len. induction data as [|b data IH]; [reflexivity|].
    cbn [RomGen.hex_file Hex.hex2 String.append String.length List.length].
    lia.
  - intros other Heq.
    pose proof (read_hex_file other) as Ho. rewrite Heq, read_hex_file in Ho.
    injection Ho as Ho. revert other Ho Heq.
    induction data as [|b data IH]; intros [|o other] Ho Heq;
      try discriminate; [reflexivity|].
    cbn [map] in Ho. injection Ho as Hb Ho.
    apply byte_val_inj in Hb. subst o. f_equal.
    apply IH; [exact Ho|].
    cbn [RomGen.hex_file Hex.hex2 String.append] in Heq.
    injection Heq as Heq. exact Heq.
Qed.

(** ** dump_vectors.py: the rows of the dump *)

Section DumpRows.

Lemma chunks_concat (d : list byte) (m : nat) :
  List.concat
    (map (fun i => slice i (i + 16) d)
         (map (fun k => k * 16) (map Z.of_nat (seq 0 m))))
  = slice 0 (16 * Z.of_nat m) d.
Proof.
  induction m as [|m IH].
  - cbn. unfold slice. reflexivity.
  - rewrite seq_S, !map_app, concat_app, IH. cbn [map List.concat Nat.add].
    rewrite app_nil_r.
    rewrite (slice_split 0 (16 * Z.of_nat m) (16 * Z.of_nat (S m))) by lia.
    f_equal. f_equal; lia.
Qed.

Lemma range_step_16 (n i : Z) :
  In i (range_step n 16) -> 0 <= i < n /\ i mod 16 = 0.
Proof.
  unfold range_step, range. intros H.
  apply in_map_iff in H. destruct H as [k [<- Hk]].
  apply in_map_iff in Hk. destruct Hk as [j [<- Hj]].
  apply in_seq in Hj.
  pose proof (Z.div_mod (n + 16 - 1) 16 ltac:(lia)).
  pose proof (Z.mod_pos_bound (n + 16 - 1) 16 ltac:(lia)).
  split; [lia | apply Z.mod_mul; lia].
Qed.

Lemma tail_length (file : list byte) (count : Z) :
  len (DumpVectors.tail file count) = Z.max 0 (Z.min count (len file)).
Proof.
  unfold DumpVectors.tail, slice_from, len. rewrite length_skipn. lia.
Qed.

End DumpRows.

(** Every row of the dump holds between 1 and 16 bytes. *)
Lemma dump_tail_chunk_sizes (contents : list byte) (count : Z)
  (rows : list DumpVectors.row) :
  DumpVectors.dump_tail (Some contents) count = Some rows ->
  Forall (fun r => 1 <= len (DumpVectors.row_chunk r) <= 16) rows.
Proof.
  intros Hrows. cbn [DumpVectors.dump_tail] in Hrows.
  injection Hrows as <-.
  apply Forall_forall. intros r Hr. apply in_map_iff in Hr.
  destruct Hr as [i [<- Hi]]. apply range_step_16 in Hi.
  cbn [DumpVectors.row_chunk].
  unfold len, slice. rewrite length_firstn, length_skipn.
  unfold len in Hi. lia.
Qed.

(** X23.  [dump_tail] reads the last [min(count, size)] bytes of the file
    (none for a negative [count]) and prints them in rows: the chunks of
    the rows, in order, are exactly those bytes; every row holds between
    1 and 16 bytes; and the offset shown on a row is the true offset in
    the file of the row's first byte. *)
Theorem dump_tail_rows (contents : list byte) (count : Z)
  (rows : list DumpVectors.row) :
  DumpVectors.dump_tail (Some contents) count = Some rows ->
  List.concat (map DumpVectors.row_chunk rows)
  = DumpVectors.tail contents count
  /\ len (DumpVectors.tail contents count)
     = Z.max 0 (Z.min count (len contents))
  /\ contents
     = slice 0 (len contents - len (DumpVectors.tail contents count))
             contents
       ++ DumpVectors.tail contents count
  /\ Forall (fun r =>
               0 <= DumpVectors.row_offset r
               /\ DumpVectors.row_chunk r
                  = slice (DumpVectors.row_offset r)
                          (DumpVectors.row_offset r + 16) contents
               /\ 1 <= len (DumpVectors.row_chunk r) <= 16)
            rows.
Proof.
  intros Hrows. cbn [DumpVectors.dump_tail] in Hrows.
  injection Hrows as <-.
  pose proof (tail_length contents count) as Hlen.
  assert (Hsize : 0 <= len contents) by (unfold len; lia).
  set (data := DumpVectors.tail contents count) in *.
  split; [|split; [exact Hlen | split]].
  - rewrite map_map. cbn [DumpVectors.row_chunk].
    unfold range_step, range.
    rewrite <- (map_map (fun i => i)
                  (fun i => slice i (i + 16) data)).
    rewrite map_id, chunks_concat. apply slice_all.
    pose proof (Z.div_mod (len data + 16 - 1) 16 ltac:(lia)).
    pose proof (Z.mod_pos_bound (len data + 16 - 1) 16 ltac:(lia)).
    assert (0 <= len data) by (unfold len; lia).
    assert (0 <= (len data + 16 - 1) / 16) by (apply Z.div_pos; lia).
    lia.
  - unfold data, DumpVectors.tail, slice_from, slice.
    cbn [Z.to_nat skipn]. rewrite Nat.sub_0_r.
    rewrite <- (firstn_skipn
                  (Z.to_nat (len contents
                             - len (skipn (Z.to_nat
                                      (Z.max 0 (len contents - count)))
                                      contents)))
                  contents) at 1.
    f_equal. unfold len. rewrite length_skipn.
    destruct (Nat.le_gt_cases (Z.to_nat (Z.max 0
                (Z.of_nat (List.length contents) - count)))
                (List.length contents)) as [Hle|Hgt].
    + f_equal. lia.
    + rewrite !skipn_all2 by lia. reflexivity.
  - apply Forall_forall. intros r Hr. apply in_map_iff in Hr.
    destruct Hr as [i [<- Hi]]. apply range_step_16 in Hi.
    cbn [DumpVectors.row_offset DumpVectors.row_chunk].
    assert (Hskip : len contents - len data
                    = Z.max 0 (len contents - count)) by lia.
    rewrite Hskip. split; [lia|]. split.
    + unfold data, DumpVectors.tail.
      rewrite slice_skipn by lia. f_equal; lia.
    + unfold len, slice. rewrite length_firstn, length_skipn.
      unfold len in Hi. lia.
Qed.

Lemma dump_tail_rows_witness :
  List.concat
    (map DumpVectors.row_chunk
       [DumpVectors.mkRow 1 [x02; x03]
          (DumpVectors.hex_str [x02; x03])
          (DumpVectors.ascii_str [x02; x03])])
  = DumpVectors.tail [x01; x02; x03] 2.
Proof.
  destruct (dump_tail_rows [x01; x02; x03] 2
              [DumpVectors.mkRow 1 [x02; x03]
                 (DumpVectors.hex_str [x02; x03])
                 (DumpVectors.ascii_str [x02; x03])]) as [H _].
  - reflexivity.
  - exact H.
Defined.

(** ** find_all.py and find_offset.py: searching for a byte sequence *)

Section Searching.

Import Find Observe.

Lemma starts_with_firstn (sub : list byte) :
  forall d : list byte,
    starts_with sub d = true <-> firstn (List.length sub) d = sub.
Proof.
  induction sub as [|s sub IH]; intros [|b d]; cbn [starts_with firstn
                                                    List.length].
  - tauto.
  - tauto.
  - split; discriminate.
  - rewrite andb_true_iff, IH. split.
    + intros [Hb Hd]. apply byte_dec_bl in Hb. congruence.
    + intros H. injection H as -> H.
      split; [apply byte_dec_lb; reflexivity | exact H].
Qed.

(** The boolean test at offset [p] decides [occurs]. *)
Lemma occurs_starts_with (sub data : list byte) (p : nat) :
  (p <= List.length data)%nat ->
  occurs sub data (Z.of_nat p)
  <-> starts_with sub (skipn p data) = true.
Proof.
  intros Hp. rewrite starts_with_firstn. unfold occurs, slice, len.
  rewrite Nat2Z.id.
  replace (Z.to_nat (Z.of_nat p + Z.of_nat (List.length sub)) - p)%nat
    with (List.length sub) by lia.
  split.
  - intros (_ & _ & H). exact H.
  - intros H. split; [lia|]. split; [|exact H].
    apply (f_equal (@List.length byte)) in H.
    rewrite length_firstn, length_skipn in H. lia.
Qed.

Lemma skipn_tail (s : nat) (data d' : list byte) (b : byte) :
  skipn s data = b :: d' ->
  skipn (S s) data = d' /\ (s < List.length data)%nat.
Proof.
  intros H. split.
  - change (S s) with (1 + s)%nat. rewrite <- skipn_skipn, H. reflexivity.
  - apply (f_equal (@List.length byte)) in H.
    rewrite length_skipn in H. cbn [List.length] in H. lia.
Qed.

(** [find_in] through the suffix at [s]: the first offset from [s] at
    which [sub] begins, with none before it; or [-1] with none at
    all. *)
Lemma find_in_first (sub data : list byte) :
  forall (d : list byte) (s : nat),
    d = skipn s data -> (s <= List.length data)%nat ->
    (find_in sub d (Z.of_nat s) = -1
     /\ filter (fun p => starts_with sub (skipn p data))
               (seq s (List.length data + 1 - s)) = [])
    \/ (exists k : nat,
          (s <= k <= List.length data)%nat
          /\ find_in sub d (Z.of_nat s) = Z.of_nat k
          /\ starts_with sub (skipn k data) = true
          /\ filter (fun p => starts_with sub (skipn p data))
                    (seq s (k - s)) = []).
Proof.
  induction d as [|b d IH]; intros s Hd Hs.
  - assert (Hlen : s = List.length data).
    { apply (f_equal (@List.length byte)) in Hd.
      rewrite length_skipn in Hd. cbn [List.length] in Hd. lia. }
    cbn [find_in].
    destruct (starts_with sub []) eqn:Hsw.
    + right. exists s. rewrite Nat.sub_diag, <- Hd.
      repeat split; [lia | lia | exact Hsw].
    + left. split; [reflexivity|].
      replace (List.length data + 1 - s)%nat with 1%nat by lia.
      cbn [seq filter]. rewrite <- Hd, Hsw. reflexivity.
  - symmetry in Hd. destruct (skipn_tail s data d b Hd) as [Hd' Hlt].
    cbn [find_in].
    destruct (starts_with sub (b :: d)) eqn:Hsw.
    + right. exists s. rewrite Nat.sub_diag, Hd.
      repeat split; [lia | lia | exact Hsw].
    + replace (Z.of_nat s + 1) with (Z.of_nat (S s)) by lia.
      destruct (IH (S s) (eq_sym Hd') ltac:(lia))
        as [[Hr Hf]|[k (Hk & Hr & Hp & Hf)]].
      * left. split; [exact Hr|].
        replace (List.length data + 1 - s)%nat
          with (S (List.length data + 1 - S s)) by lia.
        cbn [seq filter]. rewrite Hd, Hsw. exact Hf.
      * right. exists k. repeat split; try lia; try assumption.
        replace (k - s)%nat with (S (k - S s)) by lia.
        cbn [seq filter]. rewrite Hd, Hsw. exact Hf.
Qed.

(** The loop of [find_all] from offset [s]: it prints the offsets from
    [s] on at which the target begins, in ascending order, and counts
    them. *)
Lemma find_loop_collects (data target : list byte) (fuel : nat) :
  forall (s : nat) (count : Z) (printed : list Z),
    (s <= List.length data + 1)%nat ->
    (List.length data + 2 - s <= fuel)%nat ->
    find_loop fuel data target (Z.of_nat s) count printed
    = Some (printed
            ++ map Z.of_nat
                 (filter (fun p => starts_with target (skipn p data))
                         (seq s (List.length data + 1 - s))),
            count
            + Z.of_nat
                (List.length
                   (filter (fun p => starts_with target (skipn p data))
                           (seq s (List.length data + 1 - s))))).
Proof.
  induction fuel as [|fuel IH]; intros s count printed Hs Hfuel; [lia|].
  cbn [find_loop]. unfold find, len.
  destruct (Z.ltb_spec (Z.of_nat (List.length data)) (Z.of_nat s))
    as [Hpast|Hin].
  - change (-1 =? -1) with true. cbv iota.
    replace (List.length data + 1 - s)%nat with 0%nat by lia.
    cbn [seq filter map List.length]. rewrite app_nil_r. f_equal.
    f_equal. lia.
  - unfold slice_from. rewrite Nat2Z.id.
    destruct (find_in_first target data (skipn s data) s eq_refl
                ltac:(lia)) as [[Hr Hf]|[k (Hk & Hr & Hp & Hf)]].
    + rewrite Hr. change (-1 =? -1) with true. cbv iota.
      rewrite Hf. cbn [map List.length]. rewrite app_nil_r.
      f_equal. f_equal. lia.
    + rewrite Hr.
      destruct (Z.eqb_spec (Z.of_nat k) (-1)) as [Habs|_]; [lia|].
      replace (Z.of_nat k + 1) with (Z.of_nat (S k)) by lia.
      rewrite IH by lia.
      replace (List.length data + 1 - s)%nat
        with ((k - s) + (1 + (List.length data + 1 - S k)))%nat by lia.
      rewrite seq_app, filter_app, Hf.
      replace (s + (k - s))%nat with k by lia.
      rewrite seq_app, filter_app. cbn [seq filter app].
      rewrite Hp. cbn [app map List.length].
      replace (k + 1)%nat with (S k) by lia.
      rewrite <- app_assoc. cbn [app]. f_equal. f_equal. lia.
Qed.

End Searching.

(** X21.  Given fuel for one search per offset, [find_all] prints exactly the
    offsets [0 .. len(data)] at which the target begins, in ascending
    order and with overlapping matches included, and the total it
    prints is their number.  An offset is printed if and only if the
    target occurs there. *)
Theorem find_all_reports_every_occurrence (data target_seq : list byte)
  (fuel : nat) :
  (List.length data + 2 <= fuel)%nat ->
  let found :=
    map Z.of_nat
        (filter (fun p => Find.starts_with target_seq (skipn p data))
                (seq 0 (List.length data + 1))) in
  Find.find_all fuel data target_seq = Some (found, Observe.len_of found)
  /\ (forall p : Z, In p found <-> Observe.occurs target_seq data p).
Proof.
  intros Hfuel. cbv zeta. split.
  - unfold Find.find_all, Observe.len_of.
    pose proof (find_loop_collects data target_seq fuel 0 0 []
                  ltac:(lia) ltac:(lia)) as H.
    cbn [Z.of_nat app] in H. rewrite Nat.sub_0_r in H.
    rewrite H, length_map. reflexivity.
  - intros p. rewrite in_map_iff. split.
    + intros [k [<- Hk]]. apply filter_In in Hk.
      destruct Hk as [Hk Hsw]. apply in_seq in Hk.
      apply occurs_starts_with; [lia | exact Hsw].
    + intros Hocc. exists (Z.to_nat p).
      assert (Hp : 0 <= p /\ p <= len data).
      { unfold Observe.occurs, len in *. lia. }
      split; [lia|]. apply filter_In. split.
      * apply in_seq. unfold len in Hp. lia.
      * apply occurs_starts_with; [unfold len in Hp; lia|].
        rewrite Z2Nat.id by lia. exact Hocc.
Qed.

Lemma find_all_reports_every_occurrence_witness :
  Find.find_all 5 [x01; x01; x01] [x01; x01] = Some ([0; 1], 2).
Proof.
  destruct (find_all_reports_every_occurrence [x01; x01; x01] [x01; x01] 5)
    as [H _].
  - cbn. lia.
  - exact H.
Defined.

Section SearchContext.

Import Find Observe.

Lemma filter_nil_none (f : nat -> bool) (l : list nat) (x : nat) :
  filter f l = [] -> In x l -> f x = false.
Proof.
  intros Hnil Hin. destruct (f x) eqn:Hfx; [|reflexivity].
  assert (Hx : In x (filter f l)) by (apply filter_In; split; assumption).
  rewrite Hnil in Hx. destruct Hx.
Qed.

Lemma slice_slice (s e a b : Z) (d : list byte) :
  0 <= s -> 0 <= a -> s + b <= e ->
  slice a b (slice s e d) = slice (s + a) (s + b) d.
Proof.
  intros Hs Ha Hb. unfold slice.
  rewrite skipn_firstn_comm, firstn_firstn, skipn_skipn.
  f_equal; [lia | f_equal; lia].
Qed.

(** [data.find(sub)] from the start: the first occurrence, or [-1] when
    there is none. *)
Lemma find_first_occurrence (data sub : list byte) :
  (find data sub 0 = -1 /\ forall p, ~ occurs sub data p)
  \/ (occurs sub data (find data sub 0)
      /\ forall p, 0 <= p < find data sub 0 -> ~ occurs sub data p).
Proof.
  unfold find.
  destruct (Z.ltb_spec (len data) 0) as [Hneg|_];
    [unfold len in Hneg; lia|].
  unfold slice_from. cbn [Z.to_nat skipn].
  destruct (find_in_first sub data data 0 eq_refl ltac:(lia))
    as [[Hr Hf]|[k (Hk & Hr & Hp & Hf)]]; cbn [Z.of_nat] in Hr.
  - left. split; [exact Hr|].
    intros p Hocc.
    assert (Hb : 0 <= p <= len data)
      by (unfold occurs, len in *; lia).
    pose proof (filter_nil_none _ _ (Z.to_nat p) Hf) as Hnone.
    cbv beta in Hnone. rewrite Nat.sub_0_r in Hnone.
    assert (Hsw : starts_with sub (skipn (Z.to_nat p) data) = true).
    { apply occurs_starts_with; [unfold len in Hb; lia|].
      rewrite Z2Nat.id by lia. exact Hocc. }
    rewrite Hnone in Hsw; [discriminate|].
    apply in_seq. unfold len in Hb. lia.
  - right. rewrite Hr. split.
    + apply occurs_starts_with; [lia | exact Hp].
    + intros p Hlt Hocc.
      pose proof (filter_nil_none _ _ (Z.to_nat p) Hf) as Hnone.
      cbv beta in Hnone. rewrite Nat.sub_0_r in Hnone.
      assert (Hsw : starts_with sub (skipn (Z.to_nat p) data) = true).
      { apply occurs_starts_with; [lia|].
        rewrite Z2Nat.id by lia. exact Hocc. }
      rewrite Hnone in Hsw; [discriminate|].
      apply in_seq. lia.
Qed.

End SearchContext.

(** X22.  [find_seq] reports "not found" exactly when the target occurs
    nowhere.  Otherwise the offset it prints is the first occurrence,
    and the context it prints is at most 48 bytes of the file around
    it, in which a target of up to 32 bytes appears whole, 16 bytes in
    (or fewer when the match is within 16 bytes of the start of the
    file). *)
Theorem find_seq_context (data target_seq : list byte) :
  (Find.find_seq data target_seq = None
   <-> forall p, ~ Observe.occurs target_seq data p)
  /\ (forall (idx : Z) (context : list byte),
        Find.find_seq data target_seq = Some (idx, context) ->
        Observe.occurs target_seq data idx
        /\ (forall p, 0 <= p < idx -> ~ Observe.occurs target_seq data p)
        /\ len context <= 48
        /\ (len target_seq <= 32 ->
            Observe.occurs target_seq context (Z.min idx 16))).
Proof.
  unfold Find.find_seq.
  destruct (find_first_occurrence data target_seq)
    as [[Hr Hnone]|[Hocc Hfirst]].
  - rewrite Hr. change (negb (-1 =? -1)) with false. cbv iota.
    split; [split; [intros _; exact Hnone | reflexivity]|].
    intros idx context H. discriminate.
  - set (idx := Find.find data target_seq 0) in *.
    assert (Hidx : 0 <= idx /\ idx + len target_seq <= len data
                   /\ 0 <= len target_seq)
      by (unfold Observe.occurs, len in *; lia).
    destruct (Z.eqb_spec idx (-1)) as [Habs|_]; [lia|]. cbn [negb].
    split.
    + split; [discriminate|]. intros Hnone. exfalso.
      exact (Hnone idx Hocc).
    + intros idx' context H. injection H as <- <-.
      split; [exact Hocc|]. split; [exact Hfirst|].
      assert (Hlen : len (slice (Z.max 0 (idx - 16))
                                (Z.min (len data) (idx + 32)) data)
                     = Z.min (len data) (idx + 32) - Z.max 0 (idx - 16)).
      { unfold len at 1. rewrite slice_length by lia. lia. }
      split; [lia|].
      intros Hshort. unfold Observe.occurs. rewrite Hlen.
      split; [lia|]. split; [lia|].
      rewrite slice_slice by lia.
      destruct Hocc as (_ & _ & Hslice).
      transitivity (slice idx (idx + len target_seq) data);
        [f_equal; lia | exact Hslice].
Qed.

Lemma find_seq_context_witness :
  Observe.occurs [x25; xa9] [x00; x25; xa9; x00] 1.
Proof.
  destruct (find_seq_context [x00; x25; xa9; x00] [x25; xa9]) as [_ H].
  destruct (H 1 [x00; x25; xa9; x00]) as [Hocc _].
  - reflexivity.
  - exact Hocc.
Defined.

(** X20.  The scan of [sim_checksum.py] compares four-byte windows: with a
    pattern of four bytes it prints exactly the offsets at which the
    pattern occurs, and with a pattern of any other length it prints
    nothing. *)
Theorem scan_finds_four_byte_patterns (pattern data : list byte) :
  (len pattern = 4 ->
   forall p, In p (SimChecksum.scan pattern data)
             <-> Observe.occurs pattern data p)
  /\ (len pattern <> 4 -> SimChecksum.scan pattern data = []).
Proof.
  assert (Hwin : forall i, In i (range (len data - 3)) ->
                 0 <= i /\ i + 4 <= len data
                 /\ List.length (slice i (i + 4) data) = 4%nat).
  { intros i Hi. unfold range in Hi. apply in_map_iff in Hi.
    destruct Hi as [k [<- Hk]]. apply in_seq in Hk.
    assert (Hb : 0 <= Z.of_nat k /\ Z.of_nat k + 4 <= len data) by lia.
    split; [lia|]. split; [lia|]. rewrite slice_length; lia. }
  unfold SimChecksum.scan, bytes_eqb. split.
  - intros H4 p. rewrite filter_In. split.
    + intros [Hin Heq]. destruct (Hwin p Hin) as (H0 & Hle & _).
      destruct (list_eq_dec byte_eq_dec _ pattern) as [E|]; [|discriminate].
      unfold Observe.occurs. rewrite H4. repeat split; try lia. exact E.
    + intros (H0 & Hle & Hs). rewrite H4 in Hle, Hs. split.
      * unfold range. apply in_map_iff. exists (Z.to_nat p).
        split; [lia|]. apply in_seq. lia.
      * destruct (list_eq_dec byte_eq_dec _ pattern); [reflexivity|].
        contradiction.
  - intros Hne.
    destruct (filter _ (range (len data - 3))) as [|i l] eqn:Hf;
      [reflexivity|].
    assert (Hi : In i (i :: l)) by (left; reflexivity).
    rewrite <- Hf in Hi. apply filter_In in Hi. destruct Hi as [Hin Heq].
    destruct (Hwin i Hin) as (_ & _ & Hlen).
    destruct (list_eq_dec byte_eq_dec _ pattern) as [E|]; [|discriminate].
    rewrite E in Hlen. unfold len in Hne. lia.
Qed.

Lemma scan_finds_four_byte_patterns_witness :
  In 1 (SimChecksum.scan [xab; x25; xa9; x00]
          [x00; xab; x25; xa9; x00; x8d]).
Proof.
  destruct (scan_finds_four_byte_patterns [xab; x25; xa9; x00]
              [x00; xab; x25; xa9; x00; x8d]) as [H _].
  apply (H eq_refl 1). unfold Observe.occurs.
  repeat split; cbn; lia.
Defined.

Section RowRendering.

Lemma string_length_append (s1 s2 : string) :
  String.length (String.append s1 s2)
  = (String.length s1 + String.length s2)%nat.
Proof.
  induction s1 as [|c s1 IH]; [reflexivity|].
  cbn [String.append String.length]. rewrite IH. reflexivity.
Qed.

Lemma hex_str_length (chunk : list byte) :
  chunk <> [] ->
  Z.of_nat (String.length (DumpVectors.hex_str chunk)) = 3 * len chunk - 1.
Proof.
  unfold DumpVectors.hex_str, len.
  induction chunk as [|b chunk IH]; intros Hne; [contradiction|].
  destruct chunk as [|b' chunk]; [reflexivity|].
  cbn [map String.concat] in *.
  rewrite !string_length_append.
  specialize (IH ltac:(discriminate)).
  cbn [String.length Hex.hex2 List.length] in *. lia.
Qed.

Lemma ascii_char_printable (b : byte) :
  32 <= Z.of_N (N_of_ascii (DumpVectors.ascii_char b)) < 127.
Proof.
  unfold DumpVectors.ascii_char.
  destruct (Z.leb_spec 32 (byte_val b));
    destruct (Z.ltb_spec (byte_val b) 127); cbn [andb];
    try (cbn; lia).
  rewrite ascii_of_byte_via_N, N_ascii_embedding.
  - unfold byte_val in *. lia.
  - pose proof (Byte.to_N_bounded b). lia.
Qed.

End RowRendering.

(** X24.  Every row [dump_tail] prints is well formed: the hex column is
    [3 * n - 1] characters for a row of [n] bytes, so it always fits the
    48 columns reserved for it, and the text column has one character
    per byte, each a printable ASCII character (codes 32 to 126). *)
Theorem dump_rows_render (contents : list byte) (count : Z)
  (rows : list DumpVectors.row) :
  DumpVectors.dump_tail (Some contents) count = Some rows ->
  Forall (fun r =>
            Z.of_nat (String.length (DumpVectors.row_hex r))
            = 3 * len (DumpVectors.row_chunk r) - 1
            /\ Z.of_nat (String.length (DumpVectors.row_hex r)) < 48
            /\ Z.of_nat (String.length (DumpVectors.row_ascii r))
               = len (DumpVectors.row_chunk r)
            /\ Forall (fun c => 32 <= Z.of_N (N_of_ascii c) < 127)
                      (list_ascii_of_string (DumpVectors.row_ascii r)))
         rows.
Proof.
  intros Hrows.
  pose proof (dump_tail_chunk_sizes contents count rows Hrows) as Hchunks.
  cbn [DumpVectors.dump_tail] in Hrows. injection Hrows as <-.
  rewrite Forall_forall in *. intros r Hr.
  pose proof (Hchunks r Hr) as Hsize.
  apply in_map_iff in Hr. destruct Hr as [i [<- _]].
  cbn [DumpVectors.row_hex DumpVectors.row_ascii DumpVectors.row_chunk]
    in *.
  set (chunk := slice i (i + 16) (DumpVectors.tail contents count)) in *.
  assert (Hne : chunk <> []).
  { intros E. rewrite E in Hsize. cbn in Hsize. lia. }
  pose proof (hex_str_length chunk Hne) as Hhex.
  split; [exact Hhex|]. split; [lia|].
  unfold DumpVectors.ascii_str.
  split.
  - unfold len. rewrite <- (length_map DumpVectors.ascii_char chunk).
    generalize (map DumpVectors.ascii_char chunk). intros l.
    induction l as [|c l IH]; [reflexivity|].
    cbn [string_of_list_ascii String.length List.length]. lia.
  - rewrite list_ascii_of_string_of_list_ascii.
    apply Forall_forall. intros c Hc. apply in_map_iff in Hc.
    destruct Hc as [b [<- _]]. apply ascii_char_printable.
Qed.

Lemma dump_rows_render_witness :
  Z.of_nat (String.length (DumpVectors.hex_str [x02; x03])) < 48.
Proof.
  pose proof (dump_rows_render [x01; x02; x03] 2
                [DumpVectors.mkRow 1 [x02; x03]
                   (DumpVectors.hex_str [x02; x03])
                   (DumpVectors.ascii_str [x02; x03])] eq_refl) as H.
  inversion H as [|r l Hr Hl]; subst.
  destruct Hr as (_ & Hfit & _). exact Hfit.
Defined.

(** X16.  The maximum that [write_game_to_blocks] prints with its size error,
    [BLOCKS_PER_GAME * BLOCK_SIZE = 51200] bytes, is the true limit: an
    image is turned away exactly when it is longer than that, so an
    image of exactly 51200 bytes is still written. *)
Theorem rejected_iff_longer_than_maximum (dev : Provisioner.device)
  (game_data : list byte) (game_number : Z) :
  let o := Provisioner.write_game_to_blocks dev game_data game_number in
  (Provisioner.oversize_rejected o = true <-> len game_data > 51200)
  /\ (Provisioner.oversize_rejected o = true ->
      In (Provisioner.ErrMaximum 51200) (Provisioner.printed o)).
Proof.
  cbv zeta. unfold Provisioner.write_game_to_blocks.
  pose proof (blocks_needed_capacity (len game_data)) as Hcap.
  change (Provisioner.BLOCKS_PER_GAME * Provisioner.BLOCK_SIZE)
    with 51200 in Hcap.
  destruct (Z.gtb_spec (Provisioner.blocks_needed (len game_data))
                       Provisioner.BLOCKS_PER_GAME) as [Hgt|Hle].
  - cbn. split; [split; [intros _; apply Hcap; lia | reflexivity]|].
    intros _. right. left. reflexivity.
  - destruct (Provisioner.attempt dev
                (Provisioner.write_ops game_data game_number))
      as [made [[|]|]]; cbn;
      (split; [split; [discriminate | intros H; apply Hcap in H; lia]
              | discriminate]).
Qed.

Lemma rejected_iff_longer_than_maximum_witness :
  In (Provisioner.ErrMaximum 51200)
     (Provisioner.printed
        (Provisioner.write_game_to_blocks (fun _ => None)
           (repeat x00 (Z.to_nat 51201)) 0)).
Proof.
  destruct (rejected_iff_longer_than_maximum (fun _ => None)
              (repeat x00 (Z.to_nat 51201)) 0) as [_ H].
  apply H. vm_compute. reflexivity.
Defined.

Lemma main_seeks_to_slots_of_existing_files_witness :
  0 <= 1 <= Z.of_nat
              (List.length
                 (filter (fun _ : string => true) ["a.a78"]%string)).
Proof.
  destruct (main_seeks_to_slots_of_existing_files
              (Provisioner.mkEnv (fun _ => true) (fun _ => [x01]) "YES"
                                 (fun _ => None))
              ["prog"; "/dev/disk4"; "a.a78"]%string) as [_ H].
  apply (H 1). vm_compute. reflexivity.
Defined.

Lemma rom_gen_round_trip_witness :
  rev [xf0; x00; x4c] = [x4c; x00; xf0].
Proof.
  destruct (rom_gen_round_trip [x4c; x00; xf0]) as (_ & _ & H).
  apply H. reflexivity.
Defined.
